(** * wbtree: a weight-balanced binary search tree (Go), shallow embedding

    The development follows [tree.go].  A [*Tree[K, V]] is a value of the
    inductive type [Tree]: [Nil] is the nil pointer, a [Node] carries the
    address of the struct it stands for together with the five fields of the
    struct.  Every subtree is exclusively owned by its parent, so the value
    of a tree is the contents of the heap reachable from its handle; writes
    through a pointer become rebuilding the node with the same address.

    [uint64] and [int] are integers in [Z] with the wrap-around written out.
    A nil dereference (a panic) is the [None] of the error monad. *)

From Stdlib Require Import ZArith List Lia Bool Sorted Permutation.
Import ListNotations.
Local Open Scope Z_scope.

(** ** Machine integers *)

(** [uint64] arithmetic wraps modulo [2^64]. *)
Definition wrap64 (z : Z) : Z := z mod 2 ^ 64.

(** Conversion to [int] (64 bits, two's complement). *)
Definition toInt (z : Z) : Z := (z + 2 ^ 63) mod 2 ^ 64 - 2 ^ 63.

(** Conversion [uint64(n)] of an [int]. *)
Definition toUint64 (n : Z) : Z := wrap64 n.

Definition treeDelta : Z := 3.
Definition treeGamma : Z := 2.

(** ** The error monad: [None] is a panic *)

Definition bind {A B : Type} (m : option A) (k : A -> option B) : option B :=
  match m with
  | Some a => k a
  | None => None
  end.

Notation "x <- m ;; k" := (bind m (fun x => k))
  (at level 61, m at next level, right associativity).
Notation "' pat <- m ;; k" := (bind m (fun x => match x with pat => k end))
  (at level 61, pat pattern, m at next level, right associativity).

(** ** Interfaces *)

(** [Cmpable[T]]: the C style three-way comparison [a.Cmp(b)]. *)
Class Cmpable (K : Type) := Cmp : K -> K -> Z.

(** The zero value of a Go type. *)
Class GoZero (T : Type) := zero : T.

(** What the documentation of [Cmpable] asks of an implementation: the sign
    of [Cmp] is a total preorder on keys, keys that compare [0] being the
    equal ones. *)
Class CmpOrder (K : Type) `{Cmpable K} : Prop := {
  Cmp_flip : forall a b : K, Z.sgn (Cmp b a) = - Z.sgn (Cmp a b);
  Cmp_trans : forall a b c : K, Cmp a b <= 0 -> Cmp b c <= 0 -> Cmp a c <= 0
}.

(** [cmpUint] of the test file: unsigned integers with the usual order. *)
Definition cmpUint (c other : Z) : Z :=
  if c =? other then 0 else if c <? other then -1 else 1.

#[export] Instance Cmpable_cmpUint : Cmpable Z := cmpUint.
#[export] Instance GoZero_Z : GoZero Z := 0.

#[export] Instance CmpOrder_cmpUint : CmpOrder Z.
Proof.
  split; unfold Cmp, Cmpable_cmpUint, cmpUint; intros;
    repeat match goal with
    | |- context [?a =? ?b] => destruct (Z.eqb_spec a b)
    | |- context [?a <? ?b] => destruct (Z.ltb_spec a b)
    | H : context [?a =? ?b] |- _ => destruct (Z.eqb_spec a b)
    | H : context [?a <? ?b] |- _ => destruct (Z.ltb_spec a b)
    end; simpl; lia.
Qed.

(** ** The tree *)

Section WBTree.

Context {K V : Type} `{Cmpable K} `{GoZero K} `{GoZero V}.

Inductive Tree : Type :=
| Nil
| Node (addr : positive) (left right : Tree) (childSize : Z) (key : K) (value : V).

Definition isNil (t : Tree) : bool :=
  match t with
  | Nil => true
  | Node _ _ _ _ _ _ => false
  end.

Definition addrOf (t : Tree) : option positive :=
  match t with
  | Nil => None
  | Node a _ _ _ _ _ => Some a
  end.

Definition RootKey (t : Tree) : K :=
  match t with
  | Nil => zero
  | Node _ _ _ _ k _ => k
  end.

Definition RootValue (t : Tree) : V :=
  match t with
  | Nil => zero
  | Node _ _ _ _ _ v => v
  end.

Definition Size (t : Tree) : Z :=
  match t with
  | Nil => 0
  | Node _ _ _ cs _ _ => wrap64 (cs + 1)
  end.

(** [forEachNode]: the callback is a closure over mutable state, here a
    state transformer returning the state and the flag.  The receiver is
    dereferenced at once, so a nil receiver panics. *)
Fixpoint forEachNode {S : Type} (f : Tree -> S -> S * bool) (reversed : bool)
    (t : Tree) (s : S) : option (S * bool) :=
  match t with
  | Nil => None
  | Node _ l r _ _ _ =>
    let prev := if reversed then r else l in
    let next := if reversed then l else r in
    '(s1, cont1) <- (if isNil prev then Some (s, true)
                     else forEachNode f reversed prev s) ;;
    if negb cont1 then Some (s1, false)
    else
      let '(s2, cont2) := f t s1 in
      if negb cont2 then Some (s2, false)
      else if isNil next then Some (s2, true)
      else forEachNode f reversed next s2
  end.

(** [top]: [make] panics on a negative capacity; the result slice is the
    state of the callback.  The other panic of [make], a capacity whose
    size in bytes exceeds what can be allocated, depends on the size of [R]
    and is left out: it cannot occur when the cached sizes are sound, the
    capacity being then at most the number of nodes, which are allocated.
    Statements about [top] on trees with unsound [childSize] are statements
    about this model only; the theorems below assume sound sizes wherever
    the capacity is not bounded by a constant. *)
Definition top {R : Type} (t : Tree) (n : Z) (reversed : bool) (f : Tree -> R)
    : option (list R) :=
  match t with
  | Nil => Some []
  | Node _ _ _ _ _ _ =>
    let ts := Size t in
    let max := if ts <? toUint64 n then toInt ts else n in
    if max <? 0 then None
    else
      '(result, _) <- forEachNode
          (fun node result =>
             let result := result ++ [f node] in
             (result, Z.of_nat (length result) <? n))
          reversed t [] ;;
      Some result
  end.

Definition identity {T : Type} (x : T) : T := x.
Definition getKeyFunc (t : Tree) : K := RootKey t.
Definition getValFunc (t : Tree) : V := RootValue t.

Definition Least (t : Tree) (n : Z) : option (list Tree) := top t n false identity.
Definition LeastKeys (t : Tree) (n : Z) : option (list K) := top t n false getKeyFunc.
Definition LeastValues (t : Tree) (n : Z) : option (list V) := top t n false getValFunc.
Definition Greatest (t : Tree) (n : Z) : option (list Tree) := top t n true identity.
Definition GreatestKeys (t : Tree) (n : Z) : option (list K) := top t n true getKeyFunc.
Definition GreatestValues (t : Tree) (n : Z) : option (list V) := top t n true getValFunc.

Definition Keys (t : Tree) : option (list K) := LeastKeys t (toInt (Size t)).
Definition Values (t : Tree) : option (list V) := LeastValues t (toInt (Size t)).

Definition GreatestNode (t : Tree) : option Tree :=
  top <- Greatest t 1 ;;
  match top with
  | x :: _ => Some x
  | [] => Some Nil
  end.

Definition LeastNode (t : Tree) : option Tree :=
  bottom <- Least t 1 ;;
  match bottom with
  | x :: _ => Some x
  | [] => Some Nil
  end.

Fixpoint GetNode (t : Tree) (key : K) : Tree :=
  match t with
  | Nil => Nil
  | Node _ l r _ k _ =>
    let compared := Cmp k key in
    if compared =? 0 then t
    else
      let next := if compared <? 0 then r else l in
      if isNil next then Nil else GetNode next key
  end.

Definition Get (t : Tree) (key : K) : V := RootValue (GetNode t key).

(** [p, q] when the heavy side is the right one, swapped otherwise: the
    pattern [a, b = p, q; if !rightHeavy { a, b = b, a }] of [balance]. *)
Definition orient (rightHeavy : bool) (p q : Tree) : Tree * Tree :=
  if rightHeavy then (p, q) else (q, p).

Definition balance (rightHeavy : bool) (t : Tree) : option Tree :=
  match t with
  | Nil => None
  | Node ta tl tr _ tk tv =>
    let '(x, c) := orient rightHeavy tl tr in
    let '(b, z) :=
      match c with
      | Nil => (Nil, Nil)
      | Node _ cl cr _ _ _ => orient rightHeavy cl cr
      end in
    let xSize := Size x in
    let cSize := Size c in
    if wrap64 (wrap64 (xSize + 1) * treeDelta) >=? wrap64 (cSize + 1) then Some t
    else
      let bSize := Size b in
      let zSize := Size z in
      if wrap64 (bSize + 1) <? wrap64 (wrap64 (zSize + 1) * treeGamma) then
        (* single rotation *)
        match c with
        | Nil => None
        | Node ca _ _ _ ck cv =>
          let '(l1, r1) := orient rightHeavy x b in
          let t1 := Node ta l1 r1 (wrap64 (xSize + bSize)) tk tv in
          let '(l2, r2) := orient rightHeavy t1 z in
          Some (Node ca l2 r2 (wrap64 (Size t1 + zSize)) ck cv)
        end
      else
        (* double rotation *)
        match b, c with
        | Node ba bl br _ bk bv, Node ca _ _ _ ck cv =>
          let '(s, y) := orient rightHeavy bl br in
          let '(l1, r1) := orient rightHeavy x s in
          let t1 := Node ta l1 r1 (wrap64 (xSize + Size s)) tk tv in
          let '(l2, r2) := orient rightHeavy y z in
          let c1 := Node ca l2 r2 (wrap64 (Size y + zSize)) ck cv in
          let '(l3, r3) := orient rightHeavy t1 c1 in
          Some (Node ba l3 r3 (wrap64 (Size t1 + Size c1)) bk bv)
        | _, _ => None
        end
  end.

(** [Insert]: [p] is the address the allocator hands out if this call
    allocates (it allocates at most one node).  When the recursive call
    reports a replacement it has written through [next] and returned [next]
    itself, so the node [t] that is returned unchanged sees the new contents
    of that child. *)
Fixpoint Insert (p : positive) (t : Tree) (key : K) (val : V) : option (Tree * bool) :=
  match t with
  | Nil => Some (Node p Nil Nil 0 key val, true)
  | Node a l r cs k v =>
    let compared := Cmp k key in
    if compared =? 0 then Some (Node a l r cs k val, false)
    else
      let addRight := compared <? 0 in
      let next := if addRight then r else l in
      '(next, added) <- (if isNil next then Some (Node p Nil Nil 0 key val, true)
                         else Insert p next key val) ;;
      let '(l1, r1) := if addRight then (l, next) else (next, r) in
      if negb added then Some (Node a l1 r1 cs k v, false)
      else
        r <- balance addRight (Node a l1 r1 (wrap64 (cs + 1)) k v) ;;
        Some (r, true)
  end.

(** [Remove]: as for [Insert], the node returned on the not-removed path is
    [t] with whatever the recursive call left in the child it was given. *)
Fixpoint Remove (t : Tree) (key : K) : option (Tree * bool) :=
  match t with
  | Nil => Some (Nil, false)
  | Node a l r cs k v =>
    let compared := Cmp k key in
    if compared =? 0 then
      if isNil l && isNil r then Some (Nil, true)
      else if negb (isNil l) && negb (isNil r) then
        rightMin <- LeastNode r ;;
        match rightMin with
        | Nil => None
        | Node _ _ _ _ mk mv =>
          '(r1, _) <- Remove r mk ;;
          result <- balance false (Node a l r1 (wrap64 (cs - 1)) mk mv) ;;
          Some (result, true)
        end
      else if isNil l then Some (r, true)
      else Some (l, true)
    else
      let removeRight := compared <? 0 in
      let next := if removeRight then r else l in
      '(newNext, removed) <- Remove next key ;;
      let '(l1, r1) := if removeRight then (l, newNext) else (newNext, r) in
      if removed then
        result <- balance (negb removeRight) (Node a l1 r1 (wrap64 (cs - 1)) k v) ;;
        Some (result, true)
      else Some (Node a l1 r1 cs k v, false)
  end.

Definition forEach {S : Type} (t : Tree) (f : K -> V -> S -> S * bool)
    (reversed : bool) (s : S) : option S :=
  '(s1, _) <- forEachNode (fun node => f (RootKey node) (RootValue node)) reversed t s ;;
  Some s1.

Definition ForEach {S : Type} (t : Tree) (f : K -> V -> S -> S * bool) (s : S)
    : option S :=
  if isNil t then Some s else forEach t f false s.

Definition ReverseForEach {S : Type} (t : Tree) (f : K -> V -> S -> S * bool) (s : S)
    : option S :=
  if isNil t then Some s else forEach t f true s.

(** ** Specification-level definitions *)

(** The number of nodes of a tree, counted rather than read from a field. *)
Fixpoint card (t : Tree) : Z :=
  match t with
  | Nil => 0
  | Node _ l r _ _ _ => card l + card r + 1
  end.

(** The nodes in the order [forEachNode] meets them. *)
Fixpoint walk (reversed : bool) (t : Tree) : list Tree :=
  match t with
  | Nil => []
  | Node _ l r _ _ _ =>
    walk reversed (if reversed then r else l) ++
    t :: walk reversed (if reversed then l else r)
  end.

(** The entries of a tree from left to right. *)
Fixpoint elements (t : Tree) : list (K * V) :=
  match t with
  | Nil => []
  | Node _ l r _ k v => elements l ++ (k, v) :: elements r
  end.

Definition keysOf (t : Tree) : list K := map fst (elements t).

(** A list walked with a callback that may stop the walk. *)
Fixpoint foldUntil {A S : Type} (f : A -> S -> S * bool) (l : list A) (s : S)
    : S * bool :=
  match l with
  | [] => (s, true)
  | a :: l' =>
    let '(s1, cont) := f a s in
    if cont then foldUntil f l' s1 else (s1, false)
  end.

(** Size bookkeeping (invariant 2): [childSize] is the sum of the sizes of
    the children, a size being what [Size] returns. *)
Fixpoint sizeOK (t : Tree) : Prop :=
  match t with
  | Nil => True
  | Node _ l r cs _ _ => cs = Size l + Size r /\ sizeOK l /\ sizeOK r
  end.

(** Weight balance (invariant 3), both child orderings, at every node. *)
Fixpoint balanced (t : Tree) : Prop :=
  match t with
  | Nil => True
  | Node _ l r _ _ _ =>
    (Size l + 1) * treeDelta >= Size r + 1 /\
    (Size r + 1) * treeDelta >= Size l + 1 /\
    balanced l /\ balanced r
  end.

(** [P] holds of every key stored in the tree. *)
Fixpoint allKeys (P : K -> Prop) (t : Tree) : Prop :=
  match t with
  | Nil => True
  | Node _ l r _ k _ => allKeys P l /\ P k /\ allKeys P r
  end.

(** BST order (invariant 1): keys on the left compare less than the key of
    the node, keys on the right compare greater. *)
Fixpoint bst (t : Tree) : Prop :=
  match t with
  | Nil => True
  | Node _ l r _ k _ =>
    allKeys (fun x => Cmp x k < 0) l /\ allKeys (fun x => 0 < Cmp x k) r /\
    bst l /\ bst r
  end.

(** Strictly ascending keys: each key compares less than every later one. *)
Definition ascending (ks : list K) : Prop :=
  StronglySorted (fun a b => Cmp a b < 0) ks.

Definition descending (ks : list K) : Prop :=
  StronglySorted (fun a b => 0 < Cmp a b) ks.

(** The invariant the proofs carry: sizes and balance stated on [card]. *)
Fixpoint inv (t : Tree) : Prop :=
  match t with
  | Nil => True
  | Node _ l r cs _ _ =>
    cs = card l + card r /\
    (card l + 1) * treeDelta >= card r + 1 /\
    (card r + 1) * treeDelta >= card l + 1 /\
    inv l /\ inv r
  end.

(** No process holds this many nodes: a node takes more than four bytes of
    a 64-bit address space.  Below it no [uint64] computation of the package
    wraps. *)
Definition maxNodes : Z := 2 ^ 62.

(** Sorted association lists, the abstract view of a tree. *)
Definition sortedE (l : list (K * V)) : Prop :=
  StronglySorted (fun p q => Cmp (fst p) (fst q) < 0) l.

Fixpoint ins_list (key : K) (val : V) (l : list (K * V)) : list (K * V) :=
  match l with
  | [] => [(key, val)]
  | (k, v) :: l' =>
    if Cmp k key =? 0 then (k, val) :: l'
    else if Cmp k key <? 0 then (k, v) :: ins_list key val l'
    else (key, val) :: l
  end.

Fixpoint del_list (key : K) (l : list (K * V)) : list (K * V) :=
  match l with
  | [] => []
  | (k, v) :: l' =>
    if Cmp k key =? 0 then l'
    else if Cmp k key <? 0 then (k, v) :: del_list key l'
    else l
  end.

Fixpoint get_list (key : K) (l : list (K * V)) : option V :=
  match l with
  | [] => None
  | (k, v) :: l' => if Cmp k key =? 0 then Some v else get_list key l'
  end.

Definition mem_list (key : K) (l : list (K * V)) : bool :=
  match get_list key l with
  | Some _ => true
  | None => false
  end.

(** Sequences of public mutating calls.  The [n]-th call is given the
    [n]-th address for the node it may allocate. *)
Inductive Op : Type :=
| OpInsert (key : K) (val : V)
| OpRemove (key : K).

Definition step (p : positive) (t : Tree) (o : Op) : option (Tree * bool) :=
  match o with
  | OpInsert key val => Insert p t key val
  | OpRemove key => Remove t key
  end.

Fixpoint runFrom (p : positive) (t : Tree) (ops : list Op) : option Tree :=
  match ops with
  | [] => Some t
  | o :: ops' =>
    '(t1, _) <- step p t o ;;
    runFrom (Pos.succ p) t1 ops'
  end.

Definition run (ops : list Op) : option Tree := runFrom 1%positive Nil ops.

(** The value the spec promises for [key] after [ops]: the one of the most
    recent insertion of a key comparing equal, unless a removal followed. *)
Fixpoint lastValue (key : K) (ops : list Op) (cur : option V) : option V :=
  match ops with
  | [] => cur
  | OpInsert k v :: ops' =>
    lastValue key ops' (if Cmp k key =? 0 then Some v else cur)
  | OpRemove k :: ops' =>
    lastValue key ops' (if Cmp k key =? 0 then None else cur)
  end.

(** The distinct keys inserted and not removed since. *)
Fixpoint liveKeys (ops : list Op) (cur : list K) : list K :=
  match ops with
  | [] => cur
  | OpInsert k _ :: ops' =>
    liveKeys ops' (if existsb (fun x => Cmp x k =? 0) cur then cur else k :: cur)
  | OpRemove k :: ops' =>
    liveKeys ops' (filter (fun x => negb (Cmp x k =? 0)) cur)
  end.

(** The abstract effect of a call on the sorted list of entries. *)
Definition absStep (l : list (K * V)) (o : Op) : list (K * V) :=
  match o with
  | OpInsert key val => ins_list key val l
  | OpRemove key => del_list key l
  end.

Definition wf (t : Tree) : Prop := inv t /\ sortedE (elements t).

(** Pairwise distinct keys: no key compares equal to a later one. *)
Definition distinctKeys (ks : list K) : Prop :=
  ForallOrdPairs (fun a b => Cmp a b <> 0) ks.

(** A tree without its values: addresses, links, cached sizes and keys. *)
Inductive Shape : Type :=
| SNil
| SNode (addr : positive) (left right : Shape) (childSize : Z) (key : K).

Fixpoint shapeOf (t : Tree) : Shape :=
  match t with
  | Nil => SNil
  | Node a l r cs k _ => SNode a (shapeOf l) (shapeOf r) cs k
  end.

(** ** Further definitions *)

(** The longest path from the root to an absent child. *)
Fixpoint height (t : Tree) : nat :=
  match t with
  | Nil => 0
  | Node _ l r _ _ _ => S (Nat.max (height l) (height r))
  end.

(** What each node holds, from left to right: its address, key and value. *)
Fixpoint cells (t : Tree) : list (positive * K * V) :=
  match t with
  | Nil => []
  | Node a l r _ k v => cells l ++ (a, k, v) :: cells r
  end.

(** The recursive [Keys], [Values], [LeastNode] and [GreatestNode] of the
    other revision of [tree.go] kept in the repository.  [Keys] and [Values]
    read [t.left] at once and so panic on a nil receiver. *)
Fixpoint Keys_rec (t : Tree) : option (list K) :=
  match t with
  | Nil => None
  | Node _ l r _ k _ =>
    keys <- (if isNil l then Some [] else Keys_rec l) ;;
    let keys := keys ++ [k] in
    if isNil r then Some keys
    else
      rKeys <- Keys_rec r ;;
      Some (keys ++ rKeys)
  end.

Fixpoint Values_rec (t : Tree) : option (list V) :=
  match t with
  | Nil => None
  | Node _ l r _ _ v =>
    vals <- (if isNil l then Some [] else Values_rec l) ;;
    let vals := vals ++ [v] in
    if isNil r then Some vals
    else
      rKeys <- Values_rec r ;;
      Some (vals ++ rKeys)
  end.

Fixpoint GreatestNode_rec (t : Tree) : Tree :=
  match t with
  | Nil => Nil
  | Node _ _ r _ _ _ => if isNil r then t else GreatestNode_rec r
  end.

Fixpoint LeastNode_rec (t : Tree) : Tree :=
  match t with
  | Nil => Nil
  | Node _ l _ _ _ _ => if isNil l then t else LeastNode_rec l
  end.

(** The loop of [TestTree2Remove]: every key must be found and removed,
    and nothing may be left; the flag is [false] where the test fails. *)
Fixpoint removeEach (t : Tree) (keys : list K) : option (Tree * bool) :=
  match keys with
  | [] => Some (t, isNil t)
  | key :: keys' =>
    if isNil (GetNode t key) then Some (t, false)
    else
      '(t1, removed) <- Remove t key ;;
      if negb removed then Some (t1, false)
      else removeEach t1 keys'
  end.

(** The loop of [TestTree2Insert] and of [testTree]: the pairs inserted one
    after the other, the [n]-th call being given the [n]-th address. *)
Definition insertAll (kvs : list (K * V)) : option Tree :=
  run (map (fun kv => OpInsert (fst kv) (snd kv)) kvs).

(** The three invariants of the data model together. *)
Definition valid (t : Tree) : Prop := bst t /\ sizeOK t /\ balanced t.

(** ** Arithmetic of the cached sizes *)

Lemma card_nonneg (t : Tree) : 0 <= card t.
Proof. induction t; simpl; lia. Qed.

Lemma wrap64_small z : 0 <= z < 2 ^ 64 -> wrap64 z = z.
Proof. intros; unfold wrap64; apply Z.mod_small; lia. Qed.

Lemma Size_card (t : Tree) : inv t -> card t <= maxNodes -> Size t = card t.
Proof.
  destruct t as [|a l r cs k v]; simpl; [reflexivity|].
  intros (-> & _) Hb. unfold maxNodes in Hb.
  pose proof (card_nonneg l); pose proof (card_nonneg r).
  apply wrap64_small; lia.
Qed.

Ltac unwrap :=
  repeat match goal with
  | |- context [wrap64 ?z] =>
      rewrite (wrap64_small z)
        by (unfold maxNodes, treeDelta, treeGamma in *; lia)
  end.

Ltac sizes :=
  repeat match goal with
  | |- context [Size ?t] =>
      rewrite (Size_card t)
        by (try assumption; unfold maxNodes in *; cbn [card inv] in *; intuition lia)
  end.

Ltac norm := cbn [Size card]; sizes; cbn [card]; unwrap.

Ltac open_node Ht :=
  cbn [inv card] in Ht;
  let Hcs := fresh "Hcs" in
  let H1 := fresh "Hbal" in
  let H2 := fresh "Hbal" in
  let Hl := fresh "Hinv" in
  let Hr := fresh "Hinv" in
  destruct Ht as (Hcs & H1 & H2 & Hl & Hr).

Ltac nonnegs :=
  repeat match goal with
  | t : Tree |- _ =>
      lazymatch goal with
      | _ : 0 <= card t |- _ => fail
      | _ => pose proof (card_nonneg t)
      end
  end.

Ltac case_geb :=
  match goal with
  | |- context [?a >=? ?b] => destruct (Z.geb_spec a b)
  end.

Ltac case_ltb :=
  match goal with
  | |- context [?a <? ?b] => destruct (Z.ltb_spec a b)
  end.

Ltac done_inv :=
  eexists; split; [reflexivity|]; norm; cbn [inv card];
  unfold treeDelta, treeGamma in *; intuition lia.

(** One call of [balance] repairs a node whose children are sound and whose
    heavy side is at most one insertion or one removal away from balance:
    it does not panic and every node of the result is balanced. *)
Lemma balance_inv (rightHeavy : bool) a l r cs k v :
  inv l -> inv r ->
  cs = card l + card r ->
  card l + card r < maxNodes ->
  (let '(x, c) := orient rightHeavy l r in
   card c + 1 <= 3 * (card x + 1) + 3 /\ card x + 1 <= 3 * (card c + 1)) ->
  exists t', balance rightHeavy (Node a l r cs k v) = Some t' /\
             inv t' /\ card t' = card l + card r + 1.
Proof.
  intros Hl Hr Hcs Hb Hnear.
  unfold balance.
  destruct rightHeavy; cbn [orient] in *;
    [destruct r as [|ca b z ccs ck cv]; [|open_node Hr]
    |destruct l as [|ca z b ccs ck cv]; [|open_node Hl]];
    cbn [card] in *; nonnegs; norm; (case_geb; [done_inv|]);
    try (exfalso; unfold treeDelta in *; lia);
    (case_ltb; [done_inv|]);
    (destruct b as [|ba ? ? bcs bk bv];
      [exfalso; cbn [card] in *; unfold treeGamma in *; lia|]);
    cbn [card] in *;
    match goal with Hb : inv (Node ba _ _ _ _ _) |- _ => open_node Hb end;
    nonnegs; done_inv.
Qed.

(** ** The order on keys *)

Context {HO : CmpOrder K}.

Lemma Cmp_lt_gt (a b : K) : Cmp a b < 0 <-> 0 < Cmp b a.
Proof. pose proof (Cmp_flip a b). lia. Qed.

Lemma Cmp_eq_sym (a b : K) : Cmp a b = 0 -> Cmp b a = 0.
Proof. pose proof (Cmp_flip a b). lia. Qed.

Lemma Cmp_refl (a : K) : Cmp a a = 0.
Proof. pose proof (Cmp_flip a a). lia. Qed.

Lemma Cmp_lt_le (a b c : K) : Cmp a b < 0 -> Cmp b c <= 0 -> Cmp a c < 0.
Proof.
  intros Hab Hbc.
  assert (Hac : Cmp a c <= 0) by (apply (Cmp_trans a b c); lia).
  destruct (Z.eq_dec (Cmp a c) 0) as [E|]; [|lia].
  assert (Hca : Cmp c a <= 0) by (apply Cmp_eq_sym in E; lia).
  pose proof (Cmp_trans b c a Hbc Hca). apply Cmp_lt_gt in Hab. lia.
Qed.

Lemma Cmp_le_lt (a b c : K) : Cmp a b <= 0 -> Cmp b c < 0 -> Cmp a c < 0.
Proof.
  intros Hab Hbc.
  assert (Hac : Cmp a c <= 0) by (apply (Cmp_trans a b c); lia).
  destruct (Z.eq_dec (Cmp a c) 0) as [E|]; [|lia].
  assert (Hca : Cmp c a <= 0) by (apply Cmp_eq_sym in E; lia).
  pose proof (Cmp_trans c a b Hca Hab). apply Cmp_lt_gt in Hbc. lia.
Qed.

Lemma Cmp_facts (a b c : K) :
  (Cmp a b <= 0 -> Cmp b c <= 0 -> Cmp a c <= 0) /\
  (Cmp a c <= 0 -> Cmp c b <= 0 -> Cmp a b <= 0) /\
  (Cmp b a <= 0 -> Cmp a c <= 0 -> Cmp b c <= 0) /\
  (Cmp b c <= 0 -> Cmp c a <= 0 -> Cmp b a <= 0) /\
  (Cmp c a <= 0 -> Cmp a b <= 0 -> Cmp c b <= 0) /\
  (Cmp c b <= 0 -> Cmp b a <= 0 -> Cmp c a <= 0) /\
  (0 < Cmp a b <-> Cmp b a < 0) /\ (Cmp a b < 0 <-> 0 < Cmp b a) /\
  (0 < Cmp a c <-> Cmp c a < 0) /\ (Cmp a c < 0 <-> 0 < Cmp c a) /\
  (0 < Cmp b c <-> Cmp c b < 0) /\ (Cmp b c < 0 <-> 0 < Cmp c b).
Proof.
  pose proof (Cmp_flip a b); pose proof (Cmp_flip a c); pose proof (Cmp_flip b c).
  repeat split; try apply Cmp_trans; lia.
Qed.

(** Decides a goal on the signs of comparisons among three keys. *)
Ltac order a b c := pose proof (Cmp_facts a b c); lia.

Ltac case_cmp k key :=
  destruct (Z.eqb_spec (Cmp k key) 0); [|destruct (Z.ltb_spec (Cmp k key) 0)].

(** ** Sorted association lists *)

Lemma sortedE_app_inv (l1 l2 : list (K * V)) (k : K) (v : V) :
  sortedE (l1 ++ (k, v) :: l2) ->
  sortedE l1 /\ sortedE l2 /\
  Forall (fun e => Cmp (fst e) k < 0) l1 /\
  Forall (fun e => Cmp k (fst e) < 0) l2.
Proof.
  unfold sortedE. induction l1 as [|e l1 IH]; simpl; intros Hs.
  - inversion Hs; subst. repeat split; auto. constructor.
  - inversion Hs as [|? ? Hs' Hall]; subst.
    destruct (IH Hs') as (S1 & S2 & F1 & F2).
    rewrite Forall_app in Hall. destruct Hall as (Ha1 & Ha2).
    inversion Ha2; subst.
    repeat split; auto; constructor; auto.
Qed.

Lemma sortedE_app_intro (l1 l2 : list (K * V)) (k : K) (v : V) :
  sortedE l1 -> sortedE l2 ->
  Forall (fun e => Cmp (fst e) k < 0) l1 ->
  Forall (fun e => Cmp k (fst e) < 0) l2 ->
  sortedE (l1 ++ (k, v) :: l2).
Proof.
  unfold sortedE. induction l1 as [|e l1 IH]; simpl; intros S1 S2 F1 F2.
  - constructor; auto.
  - inversion S1; subst. inversion F1; subst.
    constructor; auto.
    rewrite Forall_app; split; auto.
    constructor; auto.
    eapply Forall_impl; [|exact F2]. simpl; intros e' He'.
    order (fst e) k (fst e').
Qed.

Lemma ins_list_keys (key : K) (val : V) (l : list (K * V)) (P : K -> Prop) :
  P key -> Forall (fun e => P (fst e)) l ->
  Forall (fun e => P (fst e)) (ins_list key val l).
Proof.
  intros Hk. induction l as [|[k v] l IH]; simpl; intros Hl.
  - constructor; auto.
  - inversion Hl; subst. case_cmp k key; repeat constructor; auto.
Qed.

Lemma del_list_keys (key : K) (l : list (K * V)) (P : K -> Prop) :
  Forall (fun e => P (fst e)) l ->
  Forall (fun e => P (fst e)) (del_list key l).
Proof.
  induction l as [|[k v] l IH]; simpl; intros Hl; auto.
  inversion Hl; subst. case_cmp k key; auto.
Qed.

Lemma ins_list_sorted (key : K) (val : V) (l : list (K * V)) :
  sortedE l -> sortedE (ins_list key val l).
Proof.
  unfold sortedE. induction l as [|[k v] l IH]; simpl; intros Hs.
  - repeat constructor.
  - inversion Hs as [|? ? Hs' Hall]; subst. case_cmp k key.
    + constructor; auto.
    + constructor; auto.
      apply (ins_list_keys key val l (fun x => Cmp k x < 0)); auto.
    + constructor; auto. constructor.
      * simpl. order k key key.
      * eapply Forall_impl; [|exact Hall]. simpl; intros e' He'.
        order k key (fst e').
Qed.

Lemma del_list_sorted (key : K) (l : list (K * V)) :
  sortedE l -> sortedE (del_list key l).
Proof.
  unfold sortedE. induction l as [|[k v] l IH]; simpl; intros Hs; auto.
  inversion Hs as [|? ? Hs' Hall]; subst. case_cmp k key; auto.
  constructor; auto.
  apply (del_list_keys key l (fun x => Cmp k x < 0)); auto.
Qed.

Lemma ins_list_app_lt (key : K) (val : V) (l1 l2 : list (K * V)) :
  Forall (fun e => Cmp (fst e) key < 0) l1 ->
  ins_list key val (l1 ++ l2) = l1 ++ ins_list key val l2.
Proof.
  induction 1 as [|[k v] l1 Hk _ IH]; simpl; auto.
  simpl in Hk. case_cmp k key; try lia. now rewrite IH.
Qed.

Lemma ins_list_app_gt (key : K) (val : V) (l1 l2 : list (K * V)) (k : K) (v : V) :
  0 < Cmp k key ->
  ins_list key val (l1 ++ (k, v) :: l2) = ins_list key val l1 ++ (k, v) :: l2.
Proof.
  intros Hk. induction l1 as [|[k1 v1] l1 IH]; simpl.
  - case_cmp k key; try lia. reflexivity.
  - case_cmp k1 key; auto. now rewrite IH.
Qed.

Lemma del_list_app_lt (key : K) (l1 l2 : list (K * V)) :
  Forall (fun e => Cmp (fst e) key < 0) l1 ->
  del_list key (l1 ++ l2) = l1 ++ del_list key l2.
Proof.
  induction 1 as [|[k v] l1 Hk _ IH]; simpl; auto.
  simpl in Hk. case_cmp k key; try lia. now rewrite IH.
Qed.

Lemma del_list_app_gt (key : K) (l1 l2 : list (K * V)) (k : K) (v : V) :
  0 < Cmp k key ->
  del_list key (l1 ++ (k, v) :: l2) = del_list key l1 ++ (k, v) :: l2.
Proof.
  intros Hk. induction l1 as [|[k1 v1] l1 IH]; simpl.
  - case_cmp k key; try lia. reflexivity.
  - case_cmp k1 key; auto. now rewrite IH.
Qed.

Lemma get_list_none (key : K) (l : list (K * V)) :
  Forall (fun e => Cmp (fst e) key <> 0) l -> get_list key l = None.
Proof.
  induction 1 as [|[k v] l Hk _ IH]; simpl; auto.
  simpl in Hk. destruct (Z.eqb_spec (Cmp k key) 0); [lia|auto].
Qed.

Lemma get_list_app (key : K) (l1 l2 : list (K * V)) :
  get_list key (l1 ++ l2) =
  match get_list key l1 with
  | Some v => Some v
  | None => get_list key l2
  end.
Proof.
  induction l1 as [|[k v] l1 IH]; simpl; auto.
  destruct (Cmp k key =? 0); auto.
Qed.

Lemma get_list_ins (key key' : K) (val : V) (l : list (K * V)) :
  get_list key' (ins_list key val l) =
  if Cmp key key' =? 0 then Some val else get_list key' l.
Proof.
  induction l as [|[k v] l IH]; simpl; auto.
  case_cmp k key; simpl; auto.
  - destruct (Z.eqb_spec (Cmp k key') 0), (Z.eqb_spec (Cmp key key') 0);
      auto; exfalso; order k key key'.
  - rewrite IH.
    destruct (Z.eqb_spec (Cmp k key') 0), (Z.eqb_spec (Cmp key key') 0);
      auto; exfalso; order k key key'.
Qed.

Lemma get_list_del (key key' : K) (l : list (K * V)) :
  sortedE l ->
  get_list key' (del_list key l) =
  if Cmp key key' =? 0 then None else get_list key' l.
Proof.
  unfold sortedE. induction l as [|[k v] l IH]; simpl; intros Hs.
  - destruct (Cmp key key' =? 0); auto.
  - inversion Hs as [|? ? Hs' Hall]; subst. simpl in Hall.
    assert (Hnone : Cmp key' k <= 0 -> get_list key' l = None).
    { intros Hle. apply get_list_none.
      eapply Forall_impl; [|exact Hall]. simpl; intros e' He'.
      order k key' (fst e'). }
    case_cmp k key; simpl; try rewrite (IH Hs');
      destruct (Z.eqb_spec (Cmp k key') 0), (Z.eqb_spec (Cmp key key') 0);
      auto; try (exfalso; order k key key');
      (apply Hnone || (symmetry; apply Hnone)); order k key key'.
Qed.

Lemma sorted_node_lt (l1 l2 : list (K * V)) (k key : K) (v : V) :
  sortedE (l1 ++ (k, v) :: l2) -> Cmp k key <= 0 ->
  Forall (fun e => Cmp (fst e) key < 0) l1.
Proof.
  intros Hs Hk. apply sortedE_app_inv in Hs. destruct Hs as (_ & _ & F1 & _).
  eapply Forall_impl; [|exact F1]. simpl; intros e He. order (fst e) k key.
Qed.

Lemma sorted_node_gt (l1 l2 : list (K * V)) (k key : K) (v : V) :
  sortedE (l1 ++ (k, v) :: l2) -> 0 <= Cmp k key ->
  Forall (fun e => Cmp (fst e) key <> 0) l2.
Proof.
  intros Hs Hk. apply sortedE_app_inv in Hs. destruct Hs as (_ & _ & _ & F2).
  eapply Forall_impl; [|exact F2]. simpl; intros e He. order (fst e) k key.
Qed.

Lemma get_list_node_eq (l1 l2 : list (K * V)) (k key : K) (v : V) :
  sortedE (l1 ++ (k, v) :: l2) -> Cmp k key = 0 ->
  get_list key (l1 ++ (k, v) :: l2) = Some v.
Proof.
  intros Hs Hk. rewrite get_list_app, get_list_none.
  - simpl. now rewrite Hk.
  - eapply Forall_impl; [|apply (sorted_node_lt _ _ _ key _ Hs); lia].
    simpl; intros; lia.
Qed.

Lemma get_list_node_lt (l1 l2 : list (K * V)) (k key : K) (v : V) :
  sortedE (l1 ++ (k, v) :: l2) -> Cmp k key < 0 ->
  get_list key (l1 ++ (k, v) :: l2) = get_list key l2.
Proof.
  intros Hs Hk. rewrite get_list_app, get_list_none.
  - simpl. destruct (Z.eqb_spec (Cmp k key) 0); [lia|reflexivity].
  - eapply Forall_impl; [|apply (sorted_node_lt _ _ _ key _ Hs); lia].
    simpl; intros; lia.
Qed.

Lemma get_list_node_gt (l1 l2 : list (K * V)) (k key : K) (v : V) :
  sortedE (l1 ++ (k, v) :: l2) -> 0 < Cmp k key ->
  get_list key (l1 ++ (k, v) :: l2) = get_list key l1.
Proof.
  intros Hs Hk. rewrite get_list_app. destruct (get_list key l1); auto.
  simpl. destruct (Z.eqb_spec (Cmp k key) 0); [lia|].
  apply get_list_none. apply (sorted_node_gt _ _ _ key _ Hs). lia.
Qed.

Lemma ins_list_node_eq (l1 l2 : list (K * V)) (k key : K) (v val : V) :
  sortedE (l1 ++ (k, v) :: l2) -> Cmp k key = 0 ->
  ins_list key val (l1 ++ (k, v) :: l2) = l1 ++ (k, val) :: l2.
Proof.
  intros Hs Hk. rewrite ins_list_app_lt.
  - simpl. now rewrite Hk.
  - apply (sorted_node_lt _ _ _ key _ Hs). lia.
Qed.

Lemma ins_list_node_lt (l1 l2 : list (K * V)) (k key : K) (v val : V) :
  sortedE (l1 ++ (k, v) :: l2) -> Cmp k key < 0 ->
  ins_list key val (l1 ++ (k, v) :: l2) = l1 ++ (k, v) :: ins_list key val l2.
Proof.
  intros Hs Hk. rewrite ins_list_app_lt.
  - simpl. case_cmp k key; try lia. reflexivity.
  - apply (sorted_node_lt _ _ _ key _ Hs). lia.
Qed.

Lemma del_list_node_eq (l1 l2 : list (K * V)) (k key : K) (v : V) :
  sortedE (l1 ++ (k, v) :: l2) -> Cmp k key = 0 ->
  del_list key (l1 ++ (k, v) :: l2) = l1 ++ l2.
Proof.
  intros Hs Hk. rewrite del_list_app_lt.
  - simpl. now rewrite Hk.
  - apply (sorted_node_lt _ _ _ key _ Hs). lia.
Qed.

Lemma del_list_node_lt (l1 l2 : list (K * V)) (k key : K) (v : V) :
  sortedE (l1 ++ (k, v) :: l2) -> Cmp k key < 0 ->
  del_list key (l1 ++ (k, v) :: l2) = l1 ++ (k, v) :: del_list key l2.
Proof.
  intros Hs Hk. rewrite del_list_app_lt.
  - simpl. case_cmp k key; try lia. reflexivity.
  - apply (sorted_node_lt _ _ _ key _ Hs). lia.
Qed.

(** ** Rotations keep the entries in order *)

Lemma balance_elements (rightHeavy : bool) (t t' : Tree) :
  balance rightHeavy t = Some t' -> elements t' = elements t.
Proof.
  unfold balance. destruct t as [|a l r cs k v]; [discriminate|].
  destruct rightHeavy; cbn [orient];
    [destruct r as [|ca b z ccs ck cv]|destruct l as [|ca z b ccs ck cv]];
    (destruct (_ >=? _); [intros [= <-]; reflexivity|]);
    (destruct (_ <? _); [try discriminate|try destruct b; try discriminate]);
    intros [= <-]; simpl;
    repeat (rewrite <- app_assoc; simpl); reflexivity.
Qed.

(** ** Insert *)

Lemma Insert_guard (p : positive) (next : Tree) (key : K) (val : V) :
  (if isNil next then Some (Node p Nil Nil 0 key val, true)
   else Insert p next key val) = Insert p next key val.
Proof. destruct next; reflexivity. Qed.

Lemma Insert_inv (p : positive) (t : Tree) (key : K) (val : V) :
  inv t -> card t < maxNodes ->
  exists t' added,
    Insert p t key val = Some (t', added) /\ inv t' /\
    card t' = card t + (if added then 1 else 0).
Proof.
  induction t as [|a l IHl r IHr cs k v]; intros Hi Hb.
  - exists (Node p Nil Nil 0 key val), true. simpl.
    unfold treeDelta. intuition lia.
  - cbn [Insert]. rewrite Insert_guard. cbn [card] in Hb.
    pose proof Hi as Hi'. open_node Hi'. nonnegs.
    destruct (Cmp k key =? 0).
    { exists (Node a l r cs k val), false. split; [reflexivity|].
      split; [exact Hi|simpl; lia]. }
    destruct (Cmp k key <? 0).
    + destruct (IHr Hinv0 ltac:(lia)) as (r' & added & -> & Hr' & Hc).
      cbn [bind]. destruct added; cbn [negb].
      * destruct (balance_inv true a l r' (wrap64 (cs + 1)) k v)
          as (t' & -> & Ht' & Hc'); auto.
        { unwrap. lia. }
        { lia. }
        { cbn [orient]. unfold treeDelta in *. lia. }
        exists t', true. cbn [bind card]. intuition lia.
      * exists (Node a l r' cs k v), false. split; [reflexivity|].
        cbn [inv card]. rewrite Hc. unfold treeDelta in *. intuition lia.
    + destruct (IHl Hinv ltac:(lia)) as (l' & added & -> & Hl' & Hc).
      cbn [bind]. destruct added; cbn [negb].
      * destruct (balance_inv false a l' r (wrap64 (cs + 1)) k v)
          as (t' & -> & Ht' & Hc'); auto.
        { unwrap. lia. }
        { lia. }
        { cbn [orient]. unfold treeDelta in *. lia. }
        exists t', true. cbn [bind card]. intuition lia.
      * exists (Node a l' r cs k v), false. split; [reflexivity|].
        cbn [inv card]. rewrite Hc. unfold treeDelta in *. intuition lia.
Qed.

Lemma Insert_elements (p : positive) (t t' : Tree) (key : K) (val : V) (added : bool) :
  Insert p t key val = Some (t', added) -> sortedE (elements t) ->
  elements t' = ins_list key val (elements t) /\
  added = negb (mem_list key (elements t)).
Proof.
  unfold mem_list.
  revert t' added. induction t as [|a l IHl r IHr cs k v]; intros t' added.
  - intros [= <- <-] _. auto.
  - cbn [Insert]. rewrite Insert_guard. cbn [elements]. intros Hins Hs.
    pose proof (sortedE_app_inv _ _ _ _ Hs) as (Sl & Sr & _ & _).
    case_cmp k key.
    + injection Hins as <- <-. cbn [elements].
      now rewrite ins_list_node_eq, get_list_node_eq.
    + destruct (Insert p r key val) as [[r' added']|] eqn:Er; [|discriminate].
      destruct (IHr _ _ eq_refl Sr) as (Er' & Ea).
      rewrite ins_list_node_lt, get_list_node_lt by auto.
      cbn [bind] in Hins. destruct added'; cbn [negb] in Hins.
      * destruct (balance _ _) as [b|] eqn:Eb; [|discriminate].
        injection Hins as <- <-. apply balance_elements in Eb.
        rewrite Eb. cbn [elements]. now rewrite Er'.
      * injection Hins as <- <-. cbn [elements]. now rewrite Er'.
    + destruct (Insert p l key val) as [[l' added']|] eqn:El; [|discriminate].
      destruct (IHl _ _ eq_refl Sl) as (El' & Ea).
      rewrite ins_list_app_gt, get_list_node_gt by (auto; lia).
      cbn [bind] in Hins. destruct added'; cbn [negb] in Hins.
      * destruct (balance _ _) as [b|] eqn:Eb; [|discriminate].
        injection Hins as <- <-. apply balance_elements in Eb.
        rewrite Eb. cbn [elements]. now rewrite El'.
      * injection Hins as <- <-. cbn [elements]. now rewrite El'.
Qed.

(** ** Traversal *)

Lemma foldUntil_app {A S : Type} (f : A -> S -> S * bool) (l1 l2 : list A) (s : S) :
  foldUntil f (l1 ++ l2) s =
  let '(s1, cont) := foldUntil f l1 s in
  if cont then foldUntil f l2 s1 else (s1, false).
Proof.
  revert s. induction l1 as [|a l1 IH]; intros s; simpl; auto.
  destruct (f a s) as [s1 [|]]; auto.
Qed.

(** [forEachNode] is the walk of the nodes in order, stopped by the
    callback. *)
Lemma forEachNode_spec {S : Type} (f : Tree -> S -> S * bool) (reversed : bool)
    (t : Tree) (s : S) :
  isNil t = false ->
  forEachNode f reversed t s = Some (foldUntil f (walk reversed t) s).
Proof.
  revert s. induction t as [|a l IHl r IHr cs k v]; intros s Hn; [discriminate|].
  assert (G : forall u s0,
             (forall s1, isNil u = false ->
                forEachNode f reversed u s1 = Some (foldUntil f (walk reversed u) s1)) ->
             (if isNil u then Some (s0, true) else forEachNode f reversed u s0)
             = Some (foldUntil f (walk reversed u) s0)).
  { intros u s0 IH. destruct u; [reflexivity|]. now apply IH. }
  cbn [forEachNode walk]. rewrite foldUntil_app. cbn [foldUntil].
  destruct reversed.
  - rewrite (G r s IHr). cbn [bind].
    destruct (foldUntil f (walk true r) s) as [s1 [|]]; cbn [negb]; auto.
    destruct (f (Node a l r cs k v) s1) as [s2 [|]]; cbn [negb]; auto.
  - rewrite (G l s IHl). cbn [bind].
    destruct (foldUntil f (walk false l) s) as [s1 [|]]; cbn [negb]; auto.
    destruct (f (Node a l r cs k v) s1) as [s2 [|]]; cbn [negb]; auto.
Qed.

Lemma walk_rev (t : Tree) : walk true t = rev (walk false t).
Proof.
  induction t as [|a l IHl r IHr cs k v]; simpl; auto.
  rewrite rev_app_distr. simpl. rewrite <- app_assoc. simpl.
  now rewrite IHl, IHr.
Qed.

Lemma walk_length (reversed : bool) (t : Tree) :
  Z.of_nat (length (walk reversed t)) = card t.
Proof.
  induction t as [|a l IHl r IHr cs k v]; simpl; auto.
  rewrite length_app. simpl. destruct reversed; lia.
Qed.

Lemma walk_elements (t : Tree) :
  map (fun n => (RootKey n, RootValue n)) (walk false t) = elements t.
Proof.
  induction t as [|a l IHl r IHr cs k v]; simpl; auto.
  rewrite map_app. simpl. now rewrite IHl, IHr.
Qed.

Lemma elements_length (t : Tree) : Z.of_nat (length (elements t)) = card t.
Proof. rewrite <- walk_elements, length_map. apply walk_length. Qed.

(** The callback of [top] collects until the slice holds [n] results, and
    looks at the length only after it has appended. *)
Lemma collect_spec {R : Type} (f : Tree -> R) (n : Z) (l : list Tree) (acc : list R) :
  fst (foldUntil
         (fun node result =>
            let result := result ++ [f node] in
            (result, Z.of_nat (length result) <? n)) l acc)
  = acc ++ map f (firstn (Z.to_nat (Z.max 1 (n - Z.of_nat (length acc)))) l).
Proof.
  revert acc. induction l as [|x l IH]; intros acc.
  - simpl. rewrite firstn_nil. simpl. now rewrite app_nil_r.
  - cbn [foldUntil]. cbv zeta.
    remember (Z.to_nat (Z.max 1 (n - Z.of_nat (length acc)))) as m eqn:Em.
    destruct m as [|m]; [lia|]. cbn [firstn map].
    destruct (Z.ltb_spec (Z.of_nat (length (acc ++ [f x]))) n) as [Hlt|Hge];
      rewrite length_app in *; cbn [length] in *.
    + rewrite IH, <- app_assoc. cbn [app]. do 4 f_equal.
      rewrite length_app. cbn [length]. lia.
    + cbn [fst]. replace m with 0%nat by lia. reflexivity.
Qed.

Lemma top_cap (ts n : Z) :
  0 <= ts < 2 ^ 63 -> - 2 ^ 63 <= n < 2 ^ 63 ->
  ((if ts <? toUint64 n then toInt ts else n) <? 0) = false.
Proof.
  intros Hts Hn. unfold toUint64, wrap64, toInt.
  rewrite (Z.mod_small (ts + 2 ^ 63)) by lia.
  apply Z.ltb_ge.
  destruct (Z.ltb_spec ts (n mod 2 ^ 64)) as [Hlt|Hge]; [lia|].
  destruct (Z_lt_le_dec n 0) as [Hneg|Hpos]; [|lia].
  exfalso. replace n with (n + 2 ^ 64 + (-1) * 2 ^ 64) in Hge by lia.
  rewrite Z.mod_add in Hge by lia. rewrite Z.mod_small in Hge; lia.
Qed.

Lemma top_spec {R : Type} (t : Tree) (n : Z) (reversed : bool) (f : Tree -> R) :
  isNil t = false -> 0 <= Size t < 2 ^ 63 -> - 2 ^ 63 <= n < 2 ^ 63 ->
  top t n reversed f
  = Some (map f (firstn (Z.to_nat (Z.max 1 n)) (walk reversed t))).
Proof.
  intros Hn Hs Hr. unfold top. destruct t as [|a l r cs k v]; [discriminate|].
  rewrite top_cap by auto.
  rewrite forEachNode_spec by reflexivity. cbn [bind].
  pose proof (collect_spec f n (walk reversed (Node a l r cs k v)) []) as Hc.
  destruct (foldUntil _ _ _) as [res c]. cbn [fst length app] in Hc.
  rewrite Z.sub_0_r in Hc. now rewrite Hc.
Qed.

Lemma walk_nodes (reversed : bool) (t : Tree) :
  Forall (fun n => isNil n = false) (walk reversed t).
Proof.
  induction t as [|a l IHl r IHr cs k v]; simpl; [constructor|].
  rewrite Forall_app. destruct reversed; split; auto.
Qed.

(** ** Remove *)

Lemma LeastNode_spec (t : Tree) :
  isNil t = false -> inv t -> card t <= maxNodes ->
  exists a l r cs mk mv rest,
    LeastNode t = Some (Node a l r cs mk mv) /\ elements t = (mk, mv) :: rest.
Proof.
  intros Hn Hi Hb. unfold LeastNode, Least.
  pose proof (card_nonneg t).
  rewrite top_spec; auto;
    [|rewrite Size_card by auto; unfold maxNodes in *; lia|lia].
  change (Z.to_nat (Z.max 1 1)) with 1%nat.
  rewrite <- walk_elements.
  pose proof (walk_nodes false t) as Hw.
  pose proof (walk_length false t) as Hlen.
  destruct (walk false t) as [|x rest].
  - destruct t; [discriminate|]. cbn [card length] in Hlen. nonnegs. lia.
  - inversion Hw; subst. destruct x as [|a l r cs mk mv]; [discriminate|].
    exists a, l, r, cs, mk, mv. eexists. split; reflexivity.
Qed.

Lemma isNil_card (t : Tree) : isNil t = false -> 1 <= card t.
Proof. destruct t; [discriminate|]. intros _. simpl. nonnegs. lia. Qed.

Lemma isNil_elements (t : Tree) : isNil t = true -> t = Nil.
Proof. destruct t; [reflexivity|discriminate]. Qed.

Lemma Remove_spec (t : Tree) (key : K) :
  inv t -> sortedE (elements t) -> card t <= maxNodes ->
  exists t' removed,
    Remove t key = Some (t', removed) /\ inv t' /\
    elements t' = del_list key (elements t) /\
    removed = mem_list key (elements t) /\
    card t' = card t - (if removed then 1 else 0).
Proof.
  unfold mem_list.
  revert key. induction t as [|a l IHl r IHr cs k v]; intros key Hi Hs Hb.
  - exists Nil, false. simpl. auto.
  - cbn [Remove elements card] in *.
    pose proof (sortedE_app_inv _ _ _ _ Hs) as (Sl & Sr & _ & _).
    pose proof Hi as Hi'. open_node Hi'. nonnegs.
    case_cmp k key.
    + rewrite del_list_node_eq, get_list_node_eq by auto.
      destruct (isNil l) eqn:Nl, (isNil r) eqn:Nr; cbn [andb negb].
      * apply isNil_elements in Nl, Nr. subst.
        exists Nil, true. simpl. intuition lia.
      * apply isNil_elements in Nl. subst.
        exists r, true. simpl in *. intuition lia.
      * apply isNil_elements in Nr. subst.
        exists l, true. simpl in *. rewrite app_nil_r. intuition lia.
      * destruct (LeastNode_spec r Nr Hinv0 ltac:(lia))
          as (ma & ml & mr & mcs & mk & mv & rest & -> & Erest).
        cbn [bind].
        destruct (IHr mk Hinv0 Sr ltac:(lia)) as (r1 & rem & -> & Hr1 & Er1 & Erem & Hc).
        rewrite Erest in Er1, Erem. simpl in Er1, Erem.
        rewrite (Cmp_refl mk) in Er1, Erem. simpl in Er1, Erem. subst rem.
        pose proof (isNil_card l Nl).
        cbn [bind].
        destruct (balance_inv false a l r1 (wrap64 (cs - 1)) mk mv)
          as (t' & Eb & Ht' & Hc'); auto.
        { unwrap. lia. }
        { lia. }
        { cbn [orient]. unfold treeDelta in *. lia. }
        rewrite Eb. exists t', true. cbn [bind].
        apply balance_elements in Eb.
        rewrite Eb. cbn [elements]. rewrite Er1, Erest. intuition lia.
    + rewrite del_list_node_lt, get_list_node_lt by auto.
      destruct (IHr key Hinv0 Sr ltac:(lia)) as (r1 & rem & -> & Hr1 & Er1 & Erem & Hc).
      cbn [bind]. nonnegs. destruct rem; cbv iota in Hc.
      * cbn [negb].
        destruct (balance_inv false a l r1 (wrap64 (cs - 1)) k v)
          as (t' & Eb & Ht' & Hc'); auto.
        { unwrap. lia. }
        { lia. }
        { cbn [orient]. unfold treeDelta in *. lia. }
        rewrite Eb. exists t', true. cbn [bind].
        apply balance_elements in Eb.
        rewrite Eb. cbn [elements]. rewrite Er1, <- Erem. intuition lia.
      * exists (Node a l r1 cs k v), false. cbn [inv elements card].
        rewrite Er1, <- Erem. unfold treeDelta in *. intuition lia.
    + rewrite del_list_app_gt, get_list_node_gt by (auto; lia).
      destruct (IHl key Hinv Sl ltac:(lia)) as (l1 & rem & -> & Hl1 & El1 & Erem & Hc).
      cbn [bind]. nonnegs. destruct rem; cbv iota in Hc.
      * cbn [negb].
        destruct (balance_inv true a l1 r (wrap64 (cs - 1)) k v)
          as (t' & Eb & Ht' & Hc'); auto.
        { unwrap. lia. }
        { lia. }
        { cbn [orient]. unfold treeDelta in *. lia. }
        rewrite Eb. exists t', true. cbn [bind].
        apply balance_elements in Eb.
        rewrite Eb. cbn [elements]. rewrite El1, <- Erem. intuition lia.
      * exists (Node a l1 r cs k v), false. cbn [inv elements card].
        rewrite El1, <- Erem. unfold treeDelta in *. intuition lia.
Qed.

(** ** From the carried invariant to the invariants of the data model *)

Lemma inv_sizeOK (t : Tree) : inv t -> card t <= maxNodes -> sizeOK t.
Proof.
  induction t as [|a l IHl r IHr cs k v]; simpl; auto.
  intros (Hcs & _ & _ & Hl & Hr) Hb. nonnegs.
  rewrite !Size_card by (auto; lia). repeat split; auto.
  - apply IHl; auto; lia.
  - apply IHr; auto; lia.
Qed.

Lemma inv_balanced (t : Tree) : inv t -> card t <= maxNodes -> balanced t.
Proof.
  induction t as [|a l IHl r IHr cs k v]; simpl; auto.
  intros (Hcs & B1 & B2 & Hl & Hr) Hb. nonnegs.
  rewrite !Size_card by (auto; lia). repeat split; auto.
  - apply IHl; auto; lia.
  - apply IHr; auto; lia.
Qed.

Lemma allKeys_elements (P : K -> Prop) (t : Tree) :
  allKeys P t <-> Forall (fun e => P (fst e)) (elements t).
Proof.
  induction t as [|a l IHl r IHr cs k v]; simpl.
  - split; auto.
  - rewrite Forall_app, Forall_cons_iff, IHl, IHr. simpl. tauto.
Qed.

Lemma sorted_bst (t : Tree) : sortedE (elements t) -> bst t.
Proof.
  induction t as [|a l IHl r IHr cs k v]; simpl; auto.
  intros Hs. apply sortedE_app_inv in Hs. destruct Hs as (Sl & Sr & Fl & Fr).
  rewrite !allKeys_elements. repeat split; auto.
  eapply Forall_impl; [|exact Fr]. simpl; intros e He. order k (fst e) k.
Qed.

Lemma bst_sorted (t : Tree) : bst t -> sortedE (elements t).
Proof.
  induction t as [|a l IHl r IHr cs k v]; simpl.
  - constructor.
  - rewrite !allKeys_elements. intros (Fl & Fr & Bl & Br).
    apply sortedE_app_intro; auto.
    eapply Forall_impl; [|exact Fr]. simpl; intros e He. order k (fst e) k.
Qed.

Lemma sortedE_keys (l : list (K * V)) : sortedE l -> ascending (map fst l).
Proof.
  unfold sortedE, ascending. induction 1 as [|e l Hs IH Hall]; simpl; constructor; auto.
  rewrite Forall_map. exact Hall.
Qed.

Lemma descending_snoc (l : list K) (a : K) :
  descending l -> Forall (fun x => 0 < Cmp x a) l -> descending (l ++ [a]).
Proof.
  unfold descending. induction 1 as [|b l Hs IH Hall]; simpl; intros Hf.
  - repeat constructor.
  - inversion Hf; subst. constructor; auto.
    rewrite Forall_app. split; auto.
Qed.

Lemma ascending_rev (ks : list K) : ascending ks -> descending (rev ks).
Proof.
  induction 1 as [|a ks Hs IH Hall]; simpl.
  - constructor.
  - apply descending_snoc; auto. apply Forall_rev.
    eapply Forall_impl; [|exact Hall]. simpl; intros b Hb. now apply Cmp_lt_gt.
Qed.

(** [Keys] returns the keys of all entries, from left to right. *)
Lemma Keys_spec (t : Tree) :
  inv t -> card t <= maxNodes -> Keys t = Some (keysOf t).
Proof.
  intros Hi Hb. unfold Keys, LeastKeys, keysOf.
  destruct t as [|a l r cs k v]; [reflexivity|].
  pose proof (card_nonneg (Node a l r cs k v)) as Hc.
  pose proof (isNil_card (Node a l r cs k v) eq_refl) as Hc1.
  assert (Hsz : Size (Node a l r cs k v) = card (Node a l r cs k v))
    by (apply Size_card; auto).
  unfold maxNodes in Hb.
  assert (Hti : toInt (card (Node a l r cs k v)) = card (Node a l r cs k v)).
  { unfold toInt. rewrite Z.mod_small; lia. }
  rewrite top_spec; [|reflexivity|lia|rewrite Hsz, Hti; lia].
  rewrite Hsz, Hti. rewrite firstn_all2.
  - rewrite <- walk_elements, map_map. reflexivity.
  - pose proof (walk_length false (Node a l r cs k v)). lia.
Qed.

Lemma Values_spec (t : Tree) :
  inv t -> card t <= maxNodes -> Values t = Some (map snd (elements t)).
Proof.
  intros Hi Hb. unfold Values, LeastValues.
  destruct t as [|a l r cs k v]; [reflexivity|].
  pose proof (card_nonneg (Node a l r cs k v)) as Hc.
  pose proof (isNil_card (Node a l r cs k v) eq_refl) as Hc1.
  assert (Hsz : Size (Node a l r cs k v) = card (Node a l r cs k v))
    by (apply Size_card; auto).
  unfold maxNodes in Hb.
  assert (Hti : toInt (card (Node a l r cs k v)) = card (Node a l r cs k v)).
  { unfold toInt. rewrite Z.mod_small; lia. }
  rewrite top_spec; [|reflexivity|lia|rewrite Hsz, Hti; lia].
  rewrite Hsz, Hti. rewrite firstn_all2.
  - rewrite <- walk_elements, map_map. reflexivity.
  - pose proof (walk_length false (Node a l r cs k v)). lia.
Qed.

(** ** Sequences of calls *)

Lemma step_wf (p : positive) (t : Tree) (o : Op) :
  wf t -> card t < maxNodes ->
  exists t' b,
    step p t o = Some (t', b) /\ wf t' /\ card t' <= card t + 1 /\
    elements t' = absStep (elements t) o.
Proof.
  intros (Hi & Hs) Hb. destruct o as [key val|key]; cbn [step absStep].
  - destruct (Insert_inv p t key val Hi Hb) as (t' & added & E & Hi' & Hc).
    destruct (Insert_elements _ _ _ _ _ _ E Hs) as (Ee & _).
    exists t', added. repeat split; auto.
    + rewrite Ee. now apply ins_list_sorted.
    + destruct added; lia.
  - destruct (Remove_spec t key Hi Hs ltac:(lia)) as (t' & rem & E & Hi' & Ee & _ & Hc).
    exists t', rem. repeat split; auto.
    + rewrite Ee. now apply del_list_sorted.
    + destruct rem; lia.
Qed.

Lemma runFrom_wf (ops : list Op) (p : positive) (t : Tree) :
  wf t -> card t + Z.of_nat (length ops) <= maxNodes ->
  exists t',
    runFrom p t ops = Some t' /\ wf t' /\
    card t' <= card t + Z.of_nat (length ops) /\
    elements t' = fold_left absStep ops (elements t).
Proof.
  revert p t. induction ops as [|o ops IH]; intros p t Hw Hb.
  - exists t. simpl. repeat split; auto; try apply Hw. lia.
  - cbn [length] in Hb. cbn [runFrom fold_left].
    destruct (step_wf p t o Hw ltac:(lia)) as (t1 & b & -> & Hw1 & Hc1 & E1).
    cbn [bind].
    destruct (IH (Pos.succ p) t1 Hw1 ltac:(lia)) as (t' & -> & Hw' & Hc' & E').
    exists t'. rewrite E', E1. repeat split; auto; try apply Hw'.
    cbn [length]. lia.
Qed.

Lemma run_wf (ops : list Op) :
  Z.of_nat (length ops) <= maxNodes ->
  exists t,
    run ops = Some t /\ wf t /\ card t <= maxNodes /\
    elements t = fold_left absStep ops [].
Proof.
  intros Hb. unfold run.
  destruct (runFrom_wf ops 1%positive Nil) as (t & E & Hw & Hc & Ee).
  - split; simpl; auto. constructor.
  - simpl. lia.
  - exists t. simpl in Hc. repeat split; auto; try apply Hw. lia.
Qed.

(** ** Lookup *)

Lemma GetNode_spec (t : Tree) (key : K) :
  sortedE (elements t) ->
  match GetNode t key with
  | Nil => get_list key (elements t) = None
  | Node _ _ _ _ k v => get_list key (elements t) = Some v /\ Cmp k key = 0
  end.
Proof.
  induction t as [|a l IHl r IHr cs k v]; cbn [GetNode elements]; intros Hs.
  - reflexivity.
  - pose proof (sortedE_app_inv _ _ _ _ Hs) as (Sl & Sr & _ & _).
    case_cmp k key.
    + split; auto. now apply get_list_node_eq.
    + rewrite get_list_node_lt by auto.
      destruct r; [reflexivity|]. now apply IHr.
    + rewrite get_list_node_gt by (auto; lia).
      destruct l; [reflexivity|]. now apply IHl.
Qed.

Lemma Get_spec (t : Tree) (key : K) :
  sortedE (elements t) ->
  Get t key = match get_list key (elements t) with
              | Some v => v
              | None => zero
              end.
Proof.
  intros Hs. unfold Get. pose proof (GetNode_spec t key Hs) as G.
  destruct (GetNode t key).
  - now rewrite G.
  - destruct G as (-> & _). reflexivity.
Qed.

Lemma absRun_sorted (ops : list Op) (l : list (K * V)) :
  sortedE l -> sortedE (fold_left absStep ops l).
Proof.
  revert l. induction ops as [|[key val|key] ops IH]; intros l Hs; simpl; auto.
  - apply IH. now apply ins_list_sorted.
  - apply IH. now apply del_list_sorted.
Qed.

Lemma get_list_run (key : K) (ops : list Op) (l : list (K * V)) :
  sortedE l ->
  get_list key (fold_left absStep ops l) = lastValue key ops (get_list key l).
Proof.
  revert l. induction ops as [|[k v|k] ops IH]; intros l Hs; simpl; auto.
  - rewrite IH by now apply ins_list_sorted. now rewrite get_list_ins.
  - rewrite IH by now apply del_list_sorted. now rewrite get_list_del.
Qed.

(** ** The live keys of a sequence of calls *)

Lemma mem_list_existsb (key : K) (l : list (K * V)) :
  mem_list key l = existsb (fun x => Cmp x key =? 0) (map fst l).
Proof.
  unfold mem_list. induction l as [|[k v] l IH]; simpl; auto.
  destruct (Cmp k key =? 0); auto.
Qed.

Lemma existsb_perm {A : Type} (f : A -> bool) (l l' : list A) :
  Permutation l l' -> existsb f l = existsb f l'.
Proof.
  induction 1; simpl; auto.
  - now rewrite IHPermutation.
  - destruct (f x), (f y); reflexivity.
  - congruence.
Qed.

Lemma filter_perm {A : Type} (f : A -> bool) (l l' : list A) :
  Permutation l l' -> Permutation (filter f l) (filter f l').
Proof.
  induction 1; simpl; auto.
  - destruct (f x); auto.
  - destruct (f x), (f y); auto. apply perm_swap.
  - eapply perm_trans; eauto.
Qed.

Lemma ins_list_keys_new (key : K) (val : V) (l : list (K * V)) :
  mem_list key l = false ->
  Permutation (map fst (ins_list key val l)) (key :: map fst l).
Proof.
  unfold mem_list. induction l as [|[k v] l IH]; simpl; intros Hm; auto.
  destruct (Z.eqb_spec (Cmp k key) 0); [discriminate|].
  destruct (Cmp k key <? 0); simpl; auto.
  eapply perm_trans; [apply perm_skip, IH, Hm|apply perm_swap].
Qed.

Lemma ins_list_keys_old (key : K) (val : V) (l : list (K * V)) :
  sortedE l -> mem_list key l = true ->
  map fst (ins_list key val l) = map fst l.
Proof.
  unfold mem_list, sortedE.
  induction l as [|[k v] l IH]; simpl; intros Hs Hm; [discriminate|].
  inversion Hs as [|? ? Hs' Hall]; subst. simpl in Hall.
  case_cmp k key; simpl; auto.
  - f_equal. apply IH; auto.
  - exfalso. rewrite get_list_none in Hm; [discriminate|].
    eapply Forall_impl; [|exact Hall]. simpl; intros e He. order k key (fst e).
Qed.

Lemma del_list_filter (key : K) (l : list (K * V)) :
  sortedE l ->
  map fst (del_list key l) = filter (fun x => negb (Cmp x key =? 0)) (map fst l).
Proof.
  unfold sortedE. induction l as [|[k v] l IH]; simpl; intros Hs; auto.
  inversion Hs as [|? ? Hs' Hall]; subst. simpl in Hall.
  assert (Hrest : Cmp key k <= 0 ->
            filter (fun x => negb (Cmp x key =? 0)) (map fst l) = map fst l).
  { intros Hle. clear IH Hs Hs'. induction Hall as [|e l He _ IH']; simpl; auto.
    destruct (Z.eqb_spec (Cmp (fst e) key) 0); simpl.
    - exfalso. order k key (fst e).
    - now rewrite IH'. }
  case_cmp k key; simpl.
  - symmetry. apply Hrest. order k key k.
  - now rewrite IH.
  - f_equal. symmetry. apply Hrest. order k key k.
Qed.

Lemma liveKeys_perm (ops : list Op) (l : list (K * V)) (cur : list K) :
  sortedE l -> Permutation (map fst l) cur ->
  Permutation (map fst (fold_left absStep ops l)) (liveKeys ops cur).
Proof.
  revert l cur. induction ops as [|[key val|key] ops IH]; intros l cur Hs Hp;
    cbn [fold_left absStep liveKeys]; auto.
  - apply IH; [now apply ins_list_sorted|].
    rewrite <- (existsb_perm _ _ _ Hp), <- mem_list_existsb.
    destruct (mem_list key l) eqn:Hm.
    + now rewrite ins_list_keys_old.
    + eapply perm_trans; [now apply ins_list_keys_new|]. now apply perm_skip.
  - apply IH; [now apply del_list_sorted|].
    rewrite del_list_filter by auto. now apply filter_perm.
Qed.

Lemma liveKeys_distinct (kvs : list (K * V)) (cur : list K) :
  distinctKeys (map fst kvs) ->
  Forall (fun x => Forall (fun k => Cmp x k <> 0) (map fst kvs)) cur ->
  liveKeys (map (fun kv => OpInsert (fst kv) (snd kv)) kvs) cur
  = rev (map fst kvs) ++ cur.
Proof.
  unfold distinctKeys.
  revert cur. induction kvs as [|[k v] kvs IH]; intros cur Hd Hc; simpl; auto.
  inversion Hd as [|? ? Hk Hd']; subst.
  assert (He : existsb (fun x => Cmp x k =? 0) cur = false).
  { clear IH. induction Hc as [|x cur Hx _ IHc]; simpl; auto.
    simpl in Hx. inversion Hx; subst.
    destruct (Z.eqb_spec (Cmp x k) 0); [lia|auto]. }
  rewrite He, IH; auto.
  - now rewrite <- app_assoc.
  - constructor; auto.
    eapply Forall_impl; [|exact Hc]. simpl; intros x Hx. now inversion Hx.
Qed.

Lemma ascending_distinct (ks : list K) : ascending ks -> distinctKeys ks.
Proof.
  unfold ascending, distinctKeys. induction 1 as [|a ks Hs IH Hall]; constructor; auto.
  eapply Forall_impl; [|exact Hall]. simpl; intros; lia.
Qed.

Lemma firstn_bound {A : Type} (n : nat) (l : list A) :
  Z.of_nat (length l) <= maxNodes -> Z.of_nat (length (firstn n l)) <= maxNodes.
Proof. intros Hb. rewrite length_firstn. lia. Qed.

(** ** Absence of panics *)

Lemma balance_total (rightHeavy : bool) a l r cs k v :
  inv l -> inv r -> card l + card r < maxNodes ->
  balance rightHeavy (Node a l r cs k v) <> None.
Proof.
  intros Hl Hr Hb.
  unfold balance.
  destruct rightHeavy; cbn [orient] in *;
    [destruct r as [|ca b z ccs ck cv]; [|open_node Hr]
    |destruct l as [|ca z b ccs ck cv]; [|open_node Hl]];
    cbn [card] in *; nonnegs; norm; (case_geb; [discriminate|]);
    try (exfalso; unfold treeDelta in *; lia);
    (case_ltb; [discriminate|]);
    (destruct b as [|ba ? ? bcs bk bv];
      [exfalso; cbn [card] in *; unfold treeGamma in *; lia|discriminate]).
Qed.

Lemma top_total {R : Type} (t : Tree) (n : Z) (reversed : bool) (f : Tree -> R) :
  inv t -> card t <= maxNodes -> - 2 ^ 63 <= n < 2 ^ 63 ->
  top t n reversed f <> None.
Proof.
  intros Hi Hb Hn. destruct t as [|a l r cs k v]; [discriminate|].
  pose proof (card_nonneg (Node a l r cs k v)).
  rewrite top_spec; [discriminate|reflexivity| |auto].
  rewrite Size_card by auto. unfold maxNodes in *. lia.
Qed.

Lemma forEach_spec {S : Type} (t : Tree) (f : K -> V -> S -> S * bool)
    (reversed : bool) (s : S) :
  isNil t = false ->
  forEach t f reversed s
  = Some (fst (foldUntil (fun e => f (fst e) (snd e))
                 (if reversed then rev (elements t) else elements t) s)).
Proof.
  intros Hn. unfold forEach. rewrite forEachNode_spec by auto. cbn [bind].
  assert (M : forall (l : list Tree) s0,
            foldUntil (fun node => f (RootKey node) (RootValue node)) l s0
            = foldUntil (fun e => f (fst e) (snd e))
                (map (fun n => (RootKey n, RootValue n)) l) s0).
  { induction l as [|x l IH]; intros s0; simpl; auto.
    destruct (f (RootKey x) (RootValue x) s0) as [s1 [|]]; auto. }
  rewrite M. destruct reversed.
  - rewrite walk_rev, map_rev, walk_elements.
    now destruct (foldUntil _ _ _).
  - rewrite walk_elements. now destruct (foldUntil _ _ _).
Qed.

Lemma LeastNode_total (t : Tree) :
  inv t -> card t <= maxNodes -> LeastNode t <> None /\ GreatestNode t <> None.
Proof.
  intros Hi Hb. unfold LeastNode, GreatestNode, Least, Greatest.
  split.
  - destruct (top t 1 false identity) eqn:E.
    + cbn [bind]. destruct l; discriminate.
    + exfalso. revert E. apply top_total; auto. lia.
  - destruct (top t 1 true identity) eqn:E.
    + cbn [bind]. destruct l; discriminate.
    + exfalso. revert E. apply top_total; auto. lia.
Qed.

(** ** Bounded extraction with a positive bound *)

(** For [n >= 1], [top] returns the first [min n Size] results of the walk. *)
Lemma top_prefix {R : Type} (t : Tree) (n : Z) (reversed : bool) (f : Tree -> R) :
  inv t -> card t <= maxNodes -> 1 <= n < 2 ^ 63 ->
  top t n reversed f
  = Some (map f (firstn (Z.to_nat (Z.min n (Size t))) (walk reversed t))).
Proof.
  intros Hi Hb Hn. destruct t as [|a l r cs k v].
  - simpl. now rewrite firstn_nil.
  - pose proof (card_nonneg (Node a l r cs k v)) as Hc.
    pose proof (walk_length reversed (Node a l r cs k v)) as Hl.
    assert (Hsz : Size (Node a l r cs k v) = card (Node a l r cs k v))
      by (apply Size_card; auto).
    unfold maxNodes in Hb.
    rewrite top_spec; [|reflexivity|lia|lia].
    rewrite Hsz. do 2 f_equal.
    rewrite Z.max_r by lia.
    destruct (Z_le_gt_dec n (card (Node a l r cs k v))).
    + now rewrite Z.min_l by lia.
    + rewrite Z.min_r by lia. rewrite !firstn_all2; auto; lia.
Qed.

Lemma elements_cons (t : Tree) :
  isNil t = false -> exists e rest, elements t = e :: rest.
Proof.
  intros Hn. pose proof (isNil_card t Hn). pose proof (elements_length t) as Hl.
  destruct (elements t) as [|e rest]; [simpl in Hl; lia|eauto].
Qed.

Lemma walk_cons (reversed : bool) (t : Tree) :
  isNil t = false -> exists x rest, walk reversed t = x :: rest.
Proof.
  intros Hn. pose proof (isNil_card t Hn). pose proof (walk_length reversed t) as Hl.
  destruct (walk reversed t) as [|x rest]; [simpl in Hl; lia|eauto].
Qed.

Lemma sizeOK_Size (t : Tree) : sizeOK t -> card t <= maxNodes -> Size t = card t.
Proof.
  induction t as [|a l IHl r IHr cs k v]; cbn [sizeOK card Size]; auto.
  intros (Hcs & Hl & Hr) Hb. nonnegs. unfold maxNodes in *.
  rewrite Hcs, IHl, IHr by (auto; lia). apply wrap64_small. lia.
Qed.

(** * The claims *)

(** C1.  Weight balance.  After each call of every sequence of [Insert] and
    [Remove] calls that starts from the empty tree (each prefix of the
    sequence is run), every node of the tree satisfies
    [(size(one child)+1) * 3 >= size(other child)+1] for both orderings of
    its children, although [balance] looks at the heavy side only, once per
    level. *)
Theorem C1_weight_balance (ops : list Op) (n : nat) :
  Z.of_nat (length ops) <= maxNodes ->
  exists t, run (firstn n ops) = Some t /\ balanced t.
Proof.
  intros Hb.
  destruct (run_wf (firstn n ops) (firstn_bound n ops Hb)) as (t & E & (Hi & _) & Hc & _).
  exists t. split; auto. now apply inv_balanced.
Qed.

(** C2.  BST order.  After each call of a sequence, keys on the left of a
    node compare less than its key and keys on the right compare greater,
    and [Keys] is strictly ascending, so no key occurs twice.  Inserting
    [n] pairwise distinct keys into the empty tree makes [Keys] return
    exactly these keys, strictly ascending, [n] of them. *)
Theorem C2_bst_order (ops : list Op) (n : nat) (kvs : list (K * V)) :
  Z.of_nat (length ops) <= maxNodes ->
  Z.of_nat (length kvs) <= maxNodes ->
  distinctKeys (map fst kvs) ->
  (exists t ks,
     run (firstn n ops) = Some t /\ bst t /\
     Keys t = Some ks /\ ascending ks /\ distinctKeys ks) /\
  (exists t ks,
     run (map (fun kv => OpInsert (fst kv) (snd kv)) kvs) = Some t /\
     Keys t = Some ks /\ ascending ks /\ distinctKeys ks /\
     length ks = length kvs /\ Permutation ks (map fst kvs)).
Proof.
  intros Hb Hkb Hd. split.
  - destruct (run_wf (firstn n ops) (firstn_bound n ops Hb))
      as (t & E & (Hi & Hs) & Hc & _).
    exists t, (keysOf t). repeat split; auto.
    + now apply sorted_bst.
    + now apply Keys_spec.
    + now apply sortedE_keys.
    + now apply ascending_distinct, sortedE_keys.
  - destruct (run_wf (map (fun kv => OpInsert (fst kv) (snd kv)) kvs))
      as (t & E & (Hi & Hs) & Hc & Ee).
    { now rewrite length_map. }
    assert (Hp : Permutation (keysOf t) (map fst kvs)).
    { unfold keysOf. rewrite Ee.
      eapply perm_trans.
      - apply (liveKeys_perm _ [] []); [constructor|apply perm_nil].
      - rewrite liveKeys_distinct by (auto; constructor).
        rewrite app_nil_r. apply Permutation_sym, Permutation_rev. }
    exists t, (keysOf t). repeat split; auto.
    + now apply Keys_spec.
    + now apply sortedE_keys.
    + now apply ascending_distinct, sortedE_keys.
    + apply Permutation_length in Hp. now rewrite Hp, length_map.
Qed.

(** C3.  Size bookkeeping.  After each call of a sequence the [childSize]
    of every node is the sum of the sizes of its children, and [Size] is the
    number of distinct keys inserted and not removed since; [Size] of the
    empty tree is [0]. *)
Theorem C3_size_bookkeeping (ops : list Op) (n : nat) :
  Z.of_nat (length ops) <= maxNodes ->
  Size Nil = 0 /\
  exists t,
    run (firstn n ops) = Some t /\ sizeOK t /\
    Size t = Z.of_nat (length (liveKeys (firstn n ops) [])).
Proof.
  intros Hb. split; [reflexivity|].
  destruct (run_wf (firstn n ops) (firstn_bound n ops Hb))
    as (t & E & (Hi & Hs) & Hc & Ee).
  exists t. repeat split; auto.
  - now apply inv_sizeOK.
  - rewrite Size_card by auto. rewrite <- elements_length.
    pose proof (liveKeys_perm (firstn n ops) [] [] ltac:(constructor) (perm_nil _)) as Hp.
    rewrite <- Ee in Hp. apply Permutation_length in Hp.
    rewrite length_map in Hp. now rewrite Hp.
Qed.

(** C4.  No panics.  The queries on the empty tree return defaults.  After
    each call of a sequence the next mutating call returns (so none of the
    calls of [balance] it makes dereferences an absent [c] or [b]: that is
    the only way [balance] fails, and it does not fail on a node whose
    children carry sound sizes), and so does every query. *)
Theorem C4_no_panic (ops : list Op) (n : nat) (m : Z) (key : K) (o : Op) (p : positive) :
  Z.of_nat (length ops) < maxNodes ->
  - 2 ^ 63 <= m < 2 ^ 63 ->
  (RootKey Nil = zero /\ RootValue Nil = zero /\ Size Nil = 0 /\
   Keys Nil = Some [] /\ Values Nil = Some [] /\
   Get Nil key = zero /\ GetNode Nil key = Nil /\
   Least Nil m = Some [] /\ LeastKeys Nil m = Some [] /\ LeastValues Nil m = Some [] /\
   Greatest Nil m = Some [] /\ GreatestKeys Nil m = Some [] /\
   GreatestValues Nil m = Some [] /\
   LeastNode Nil = Some Nil /\ GreatestNode Nil = Some Nil /\
   Remove Nil key = Some (Nil, false) /\
   (forall (S : Type) (f : K -> V -> S -> S * bool) (s : S),
      ForEach Nil f s = Some s /\ ReverseForEach Nil f s = Some s)) /\
  (forall rightHeavy a l r cs k v,
     inv l -> inv r -> card l + card r < maxNodes ->
     balance rightHeavy (Node a l r cs k v) <> None) /\
  exists t,
    run (firstn n ops) = Some t /\
    (exists t' b, step p t o = Some (t', b)) /\
    Keys t <> None /\ Values t <> None /\
    Least t m <> None /\ LeastKeys t m <> None /\ LeastValues t m <> None /\
    Greatest t m <> None /\ GreatestKeys t m <> None /\ GreatestValues t m <> None /\
    LeastNode t <> None /\ GreatestNode t <> None /\
    (forall (S : Type) (f : K -> V -> S -> S * bool) (s : S),
       ForEach t f s <> None /\ ReverseForEach t f s <> None).
Proof.
  intros Hb Hm. split; [|split].
  - repeat split; reflexivity.
  - intros. now apply balance_total.
  - assert (Hlen : Z.of_nat (length (firstn n ops)) < maxNodes)
      by (rewrite length_firstn; lia).
    destruct (run_wf (firstn n ops) ltac:(lia)) as (t & E & Hw & Hc & Ee).
    destruct (runFrom_wf (firstn n ops) 1%positive Nil) as (t0 & E0 & _ & Hc0 & _).
    { split; simpl; auto. constructor. }
    { simpl. lia. }
    unfold run in E. rewrite E in E0. injection E0 as <-. simpl in Hc0.
    destruct (step_wf p t o Hw ltac:(lia)) as (t' & b & Es & _).
    destruct Hw as (Hi & Hs).
    exists t. split; [exact E|]. split; [now exists t', b|].
    split; [rewrite Keys_spec by auto; discriminate|].
    split; [rewrite Values_spec by auto; discriminate|].
    unfold Least, LeastKeys, LeastValues, Greatest, GreatestKeys, GreatestValues.
    repeat (split; [now apply top_total|]).
    split; [now apply LeastNode_total|].
    split; [now apply LeastNode_total|].
    intros S f s. unfold ForEach, ReverseForEach.
    destruct (isNil t) eqn:Nt; [split; discriminate|].
    rewrite !forEach_spec by auto. split; discriminate.
Qed.

(** C5.  Lookup.  After a sequence of calls, [Get key] is the value of the
    most recent insertion of a key comparing equal to [key] when no removal
    of it followed; otherwise [Get] returns the zero value and [GetNode]
    the absent marker. *)
Theorem C5_get_latest (ops : list Op) (key : K) :
  Z.of_nat (length ops) <= maxNodes ->
  exists t,
    run ops = Some t /\
    Get t key = match lastValue key ops None with
                | Some v => v
                | None => zero
                end /\
    (lastValue key ops None = None -> GetNode t key = Nil) /\
    (forall v, lastValue key ops None = Some v -> isNil (GetNode t key) = false).
Proof.
  intros Hb. destruct (run_wf ops Hb) as (t & E & (Hi & Hs) & Hc & Ee).
  exists t. split; [exact E|].
  pose proof (get_list_run key ops [] ltac:(constructor)) as Hg.
  rewrite <- Ee in Hg. simpl in Hg.
  pose proof (GetNode_spec t key Hs) as G.
  split; [|split].
  - rewrite Get_spec by auto. now rewrite Hg.
  - intros Hn. rewrite Hn in Hg. destruct (GetNode t key); auto.
    destruct G as (G & _). congruence.
  - intros v Hv. rewrite Hv in Hg. destruct (GetNode t key); auto. congruence.
Qed.

(** C6.  Replacement.  [Insert] with a key that [GetNode] finds in the tree
    reports [wasAdded = false] and returns the same root node; addresses,
    links, keys and descendant counts of all nodes are what they were (no
    rotation took place), [Size] is unchanged, and [Get] of the key returns
    the new value. *)
Theorem C6_insert_existing (p : positive) (t : Tree) (key : K) (val : V) :
  isNil (GetNode t key) = false ->
  exists t',
    Insert p t key val = Some (t', false) /\
    addrOf t' = addrOf t /\ shapeOf t' = shapeOf t /\
    Size t' = Size t /\ Get t' key = val.
Proof.
  unfold Get.
  induction t as [|a l IHl r IHr cs k v]; cbn [GetNode Insert]; intros Hg;
    [discriminate|].
  rewrite Insert_guard.
  destruct (Cmp k key =? 0) eqn:Ek.
  - exists (Node a l r cs k val). cbn [GetNode]. rewrite Ek. auto.
  - destruct (Cmp k key <? 0) eqn:El.
    + destruct (isNil r) eqn:Nr; [discriminate|].
      destruct (IHr Hg) as (r' & -> & Ha & Hsh & Hsz & Hv).
      exists (Node a l r' cs k v). cbn [bind negb GetNode addrOf shapeOf Size].
      rewrite Ek, El, Hsh.
      assert (Nr' : isNil r' = false) by (destruct r, r'; simpl in *; congruence).
      rewrite Nr'. auto.
    + destruct (isNil l) eqn:Nl; [discriminate|].
      destruct (IHl Hg) as (l' & -> & Ha & Hsh & Hsz & Hv).
      exists (Node a l' r cs k v). cbn [bind negb GetNode addrOf shapeOf Size].
      rewrite Ek, El, Hsh.
      assert (Nl' : isNil l' = false) by (destruct l, l'; simpl in *; congruence).
      rewrite Nl'. auto.
Qed.

(** C7.  Removing an absent key.  When [GetNode] does not find the key,
    [Remove] reports [wasRemoved = false] and returns the tree it was
    given: same root, same contents, hence the same [Size] and [Keys]. *)
Theorem C7_remove_absent (t : Tree) (key : K) :
  isNil (GetNode t key) = true ->
  exists t',
    Remove t key = Some (t', false) /\ t' = t /\
    addrOf t' = addrOf t /\ Size t' = Size t /\ Keys t' = Keys t.
Proof.
  intros Hg. exists t. repeat split; auto.
  induction t as [|a l IHl r IHr cs k v]; cbn [GetNode Remove] in *;
    [reflexivity|].
  destruct (Cmp k key =? 0); [discriminate|].
  destruct (Cmp k key <? 0).
  - destruct r as [|ra rl rr rcs rk rv]; [reflexivity|].
    cbn [isNil] in Hg. now rewrite (IHr Hg).
  - destruct l as [|la ll lr lcs lk lv]; [reflexivity|].
    cbn [isNil] in Hg. now rewrite (IHl Hg).
Qed.

(** C9.  Ordered traversal.  [ForEach] runs the callback over the entries
    from left to right, [ReverseForEach] from right to left; in a search
    tree these are the ascending and the descending key order.  The walk
    ends with the first call that returns [false]: the state is the one
    that call left, no later entry is visited, and a callback that returns
    [false] at once has been called exactly once on a non-empty tree. *)
Theorem C9_foreach_order {S : Type} (t : Tree) (f : K -> V -> S -> S * bool) (s : S) :
  bst t ->
  ForEach t f s
    = Some (fst (foldUntil (fun e => f (fst e) (snd e)) (elements t) s)) /\
  ReverseForEach t f s
    = Some (fst (foldUntil (fun e => f (fst e) (snd e)) (rev (elements t)) s)) /\
  ascending (map fst (elements t)) /\
  descending (map fst (rev (elements t))) /\
  (forall l1 e l2 s1 s2,
     elements t = l1 ++ e :: l2 ->
     foldUntil (fun e => f (fst e) (snd e)) l1 s = (s1, true) ->
     f (fst e) (snd e) s1 = (s2, false) ->
     ForEach t f s = Some s2) /\
  (forall l1 e l2 s1 s2,
     rev (elements t) = l1 ++ e :: l2 ->
     foldUntil (fun e => f (fst e) (snd e)) l1 s = (s1, true) ->
     f (fst e) (snd e) s1 = (s2, false) ->
     ReverseForEach t f s = Some s2) /\
  (isNil t = false ->
   ForEach t (fun _ _ calls => (calls + 1, false)) 0 = Some 1 /\
   ReverseForEach t (fun _ _ calls => (calls + 1, false)) 0 = Some 1).
Proof.
  intros Hbst.
  assert (HF : forall (T : Type) (g : K -> V -> T -> T * bool) (s0 : T),
            ForEach t g s0
            = Some (fst (foldUntil (fun e => g (fst e) (snd e)) (elements t) s0))).
  { intros T g s0. unfold ForEach. destruct (isNil t) eqn:Nt.
    - apply isNil_elements in Nt. now subst.
    - now rewrite forEach_spec. }
  assert (HR : forall (T : Type) (g : K -> V -> T -> T * bool) (s0 : T),
            ReverseForEach t g s0
            = Some (fst (foldUntil (fun e => g (fst e) (snd e)) (rev (elements t)) s0))).
  { intros T g s0. unfold ReverseForEach. destruct (isNil t) eqn:Nt.
    - apply isNil_elements in Nt. now subst.
    - now rewrite forEach_spec. }
  assert (Ha : ascending (map fst (elements t)))
    by now apply sortedE_keys, bst_sorted.
  split; [apply HF|]. split; [apply HR|]. split; [exact Ha|].
  split; [rewrite map_rev; now apply ascending_rev|].
  split; [|split].
  - intros l1 e l2 s1 s2 He Hp1 Hp2. rewrite HF, He, foldUntil_app, Hp1.
    cbn [foldUntil]. now rewrite Hp2.
  - intros l1 e l2 s1 s2 He Hp1 Hp2. rewrite HR, He, foldUntil_app, Hp1.
    cbn [foldUntil]. now rewrite Hp2.
  - intros Hn. destruct (elements_cons t Hn) as (e & rest & He). split.
    + rewrite HF, He. reflexivity.
    + rewrite HR.
      destruct (rev (elements t)) as [|e' rest'] eqn:Er; [|reflexivity].
      apply (f_equal (@rev _)) in Er. rewrite rev_involutive, He in Er.
      discriminate.
Qed.

(** C10.  A bound [n <= 0] on a non-empty tree whose cached sizes are
    sound (every [childSize] is the sum of the sizes of the children, as in
    every tree the package builds).  [Least], [Greatest] and their key and
    value variants return exactly one element, the first of the walk: the
    callback tests the length after it has appended. *)
Theorem C10_nonpositive_bound (t : Tree) (n : Z) :
  isNil t = false -> sizeOK t -> card t <= maxNodes -> - 2 ^ 63 <= n <= 0 ->
  exists x y,
    hd_error (walk false t) = Some x /\ hd_error (walk true t) = Some y /\
    Least t n = Some [x] /\ LeastKeys t n = Some [RootKey x] /\
    LeastValues t n = Some [RootValue x] /\
    Greatest t n = Some [y] /\ GreatestKeys t n = Some [RootKey y] /\
    GreatestValues t n = Some [RootValue y].
Proof.
  intros Hn Hok Hc Hb.
  assert (Hs : 0 <= Size t < 2 ^ 63).
  { rewrite (sizeOK_Size t Hok Hc). pose proof (card_nonneg t).
    unfold maxNodes in Hc. lia. }
  destruct (walk_cons false t Hn) as (x & xs & Ex).
  destruct (walk_cons true t Hn) as (y & ys & Ey).
  exists x, y.
  unfold Least, LeastKeys, LeastValues, Greatest, GreatestKeys, GreatestValues.
  rewrite !top_spec by (auto; lia).
  rewrite Z.max_l by lia. change (Z.to_nat 1) with 1%nat.
  rewrite Ex, Ey. repeat split; reflexivity.
Qed.

(** * Further properties of the package *)

Lemma valid_inv (t : Tree) : sizeOK t -> balanced t -> card t <= maxNodes -> inv t.
Proof.
  induction t as [|a l IHl r IHr cs k v]; cbn [sizeOK balanced inv card]; auto.
  intros (Hcs & Sl & Sr) (B1 & B2 & Bl & Br) Hb. nonnegs.
  rewrite !sizeOK_Size in * by (auto; lia).
  repeat split; auto; [apply IHl|apply IHr]; auto; lia.
Qed.

Lemma valid_wf (t : Tree) : valid t -> card t <= maxNodes -> wf t.
Proof.
  intros (Hb & Hs & Hbal) Hc. split.
  - now apply valid_inv.
  - now apply bst_sorted.
Qed.

Lemma wf_valid (t : Tree) : wf t -> card t <= maxNodes -> valid t.
Proof.
  intros (Hi & Hs) Hc. repeat split.
  - now apply sorted_bst.
  - now apply inv_sizeOK.
  - now apply inv_balanced.
Qed.

Lemma mem_list_GetNode (t : Tree) (key : K) :
  sortedE (elements t) -> mem_list key (elements t) = negb (isNil (GetNode t key)).
Proof.
  intros Hs. unfold mem_list. pose proof (GetNode_spec t key Hs) as G.
  destruct (GetNode t key).
  - now rewrite G.
  - destruct G as (-> & _). reflexivity.
Qed.

(** X1.  One [Insert] on a tree that satisfies the three invariants: it
    returns, the result satisfies them, [wasAdded] tells that [GetNode] did
    not find the key, [Size] grows by one exactly then, and afterwards
    [Get] returns the new value for keys comparing equal to the inserted
    one and what it returned before for every other key. *)
Theorem X1_insert_step (p : positive) (t : Tree) (key : K) (val : V) :
  valid t -> card t < maxNodes ->
  exists t' added,
    Insert p t key val = Some (t', added) /\ valid t' /\
    added = isNil (GetNode t key) /\
    Size t' = Size t + (if added then 1 else 0) /\
    forall key', Get t' key' = if Cmp key key' =? 0 then val else Get t key'.
Proof.
  intros Hv Hb. destruct (valid_wf t Hv ltac:(lia)) as (Hi & Hs).
  destruct (Insert_inv p t key val Hi Hb) as (t' & added & E & Hi' & Hc).
  destruct (Insert_elements _ _ _ _ _ _ E Hs) as (Ee & Ea).
  assert (Hc' : card t' <= maxNodes) by (destruct added; lia).
  assert (Hs' : sortedE (elements t')) by (rewrite Ee; now apply ins_list_sorted).
  exists t', added. split; [exact E|]. split; [now apply wf_valid|].
  split; [|split].
  - rewrite Ea, mem_list_GetNode by auto. now rewrite negb_involutive.
  - rewrite !Size_card by (auto; lia). exact Hc.
  - intros key'. rewrite !Get_spec by auto. rewrite Ee, get_list_ins.
    now destruct (Cmp key key' =? 0).
Qed.

(** X2.  One [Remove] on a tree that satisfies the three invariants: it
    returns, the result satisfies them, [wasRemoved] tells that [GetNode]
    found the key, [Size] shrinks by one exactly then, and afterwards [Get]
    returns the zero value for keys comparing equal to the removed one and
    what it returned before for every other key. *)
Theorem X2_remove_step (t : Tree) (key : K) :
  valid t -> card t <= maxNodes ->
  exists t' removed,
    Remove t key = Some (t', removed) /\ valid t' /\
    removed = negb (isNil (GetNode t key)) /\
    Size t' = Size t - (if removed then 1 else 0) /\
    forall key', Get t' key' = if Cmp key key' =? 0 then zero else Get t key'.
Proof.
  intros Hv Hb. destruct (valid_wf t Hv Hb) as (Hi & Hs).
  destruct (Remove_spec t key Hi Hs Hb) as (t' & rem & E & Hi' & Ee & Er & Hc).
  assert (Hc' : card t' <= maxNodes) by (destruct rem; lia).
  assert (Hs' : sortedE (elements t')) by (rewrite Ee; now apply del_list_sorted).
  exists t', rem. split; [exact E|]. split; [now apply wf_valid|].
  split; [|split].
  - rewrite Er. now apply mem_list_GetNode.
  - rewrite !Size_card by (auto; lia). exact Hc.
  - intros key'. rewrite !Get_spec by auto. rewrite Ee, get_list_del by auto.
    now destruct (Cmp key key' =? 0).
Qed.

Lemma walk_keys (t : Tree) : map RootKey (walk false t) = keysOf t.
Proof.
  unfold keysOf. rewrite <- walk_elements, map_map. reflexivity.
Qed.

Lemma allKeys_walk (P : K -> Prop) (t : Tree) :
  allKeys P t -> Forall (fun x => P (RootKey x)) (walk false t).
Proof.
  intros Ha. apply allKeys_elements in Ha.
  rewrite <- walk_elements, Forall_map in Ha. exact Ha.
Qed.

Lemma walk_In_notNil (t x : Tree) : In x (walk false t) -> isNil t = false.
Proof. destruct t; [contradiction|reflexivity]. Qed.

Lemma GetNode_self (t x : Tree) :
  bst t -> In x (walk false t) -> GetNode t (RootKey x) = x.
Proof.
  induction t as [|a l IHl r IHr cs k v]; [contradiction|].
  cbn [bst walk GetNode]. intros (Al & Ar & Bl & Br) Hin.
  apply in_app_or in Hin. destruct Hin as [Hin|[<-|Hin]].
  - pose proof (allKeys_walk _ _ Al) as F. rewrite Forall_forall in F.
    specialize (F x Hin). cbv beta in F.
    case_cmp k (RootKey x).
    + exfalso. order k (RootKey x) k.
    + exfalso. order k (RootKey x) k.
    + rewrite (walk_In_notNil l x Hin). now apply IHl.
  - cbn [RootKey]. now rewrite (Cmp_refl k).
  - pose proof (allKeys_walk _ _ Ar) as F. rewrite Forall_forall in F.
    specialize (F x Hin). cbv beta in F.
    case_cmp k (RootKey x).
    + exfalso. order k (RootKey x) k.
    + rewrite (walk_In_notNil r x Hin). now apply IHr.
    + exfalso. order k (RootKey x) k.
Qed.

Lemma GetNode_sound (t : Tree) (key : K) :
  isNil (GetNode t key) = false ->
  In (GetNode t key) (walk false t) /\ Cmp (RootKey (GetNode t key)) key = 0.
Proof.
  induction t as [|a l IHl r IHr cs k v]; cbn [GetNode walk]; [discriminate|].
  destruct (Z.eqb_spec (Cmp k key) 0).
  - intros _. split; [apply in_or_app; right; now left|exact e].
  - destruct (Cmp k key <? 0).
    + destruct (isNil r); [discriminate|]. intros Hn.
      destruct (IHr Hn). split; auto. apply in_or_app. right. now right.
    + destruct (isNil l); [discriminate|]. intros Hn.
      destruct (IHl Hn). split; auto. apply in_or_app. now left.
Qed.

Lemma get_list_none_inv (key : K) (l : list (K * V)) :
  get_list key l = None -> Forall (fun e => Cmp (fst e) key <> 0) l.
Proof.
  induction l as [|[k v] l IH]; simpl; [constructor|].
  destruct (Z.eqb_spec (Cmp k key) 0); [discriminate|]. intros Hn.
  constructor; auto.
Qed.

Lemma GetNode_absent (t : Tree) (key : K) :
  bst t -> isNil (GetNode t key) = true ->
  Forall (fun k => Cmp k key <> 0) (keysOf t).
Proof.
  intros Hb Hn. pose proof (GetNode_spec t key (bst_sorted t Hb)) as G.
  destruct (GetNode t key); [|discriminate].
  unfold keysOf. rewrite Forall_map. now apply get_list_none_inv.
Qed.

(** X4.  Extremal nodes.  On a non-empty search tree [LeastNode] returns a
    node of the tree, found again by [GetNode] under its own key, and no
    stored key compares less than its key; [GreatestNode] likewise with no
    stored key comparing greater.  On the empty tree both return nil. *)
Theorem X4_extremal_nodes (t : Tree) :
  bst t -> isNil t = false -> 0 <= Size t < 2 ^ 63 ->
  LeastNode Nil = Some Nil /\ GreatestNode Nil = Some Nil /\
  (exists m,
     LeastNode t = Some m /\ isNil m = false /\ GetNode t (RootKey m) = m /\
     Forall (fun k => Cmp (RootKey m) k <= 0) (keysOf t)) /\
  (exists m,
     GreatestNode t = Some m /\ isNil m = false /\ GetNode t (RootKey m) = m /\
     Forall (fun k => 0 <= Cmp (RootKey m) k) (keysOf t)).
Proof.
  intros Hb Hn Hs. split; [reflexivity|]. split; [reflexivity|].
  pose proof (sortedE_keys _ (bst_sorted t Hb)) as Ha. fold (keysOf t) in Ha.
  pose proof (ascending_rev _ Ha) as Hd.
  unfold LeastNode, GreatestNode, Least, Greatest.
  rewrite !top_spec by (auto; lia). change (Z.to_nat (Z.max 1 1)) with 1%nat.
  cbn [bind]. rewrite map_id. rewrite map_id.
  rewrite <- walk_keys in Ha, Hd. rewrite <- map_rev, <- walk_rev in Hd.
  split.
  - destruct (walk_cons false t Hn) as (m & rest & Em).
    pose proof (walk_nodes false t) as Hw.
    rewrite <- walk_keys. rewrite Em in *. cbn [firstn map] in *.
    exists m. inversion Hw; subst. inversion Ha; subst.
    repeat split; auto.
    + apply GetNode_self; auto. rewrite Em. now left.
    + constructor; [rewrite (Cmp_refl (RootKey m)); lia|].
      eapply Forall_impl; [|eassumption]. simpl; intros; lia.
  - destruct (walk_cons true t Hn) as (m & rest & Em).
    pose proof (walk_nodes true t) as Hw.
    assert (Hall : Forall (fun k => 0 <= Cmp (RootKey m) k) (map RootKey (walk true t))).
    { rewrite Em in *. cbn [map] in *. inversion Hd; subst.
      constructor; [rewrite (Cmp_refl (RootKey m)); lia|].
      eapply Forall_impl; [|eassumption]. simpl; intros; lia. }
    rewrite Em in Hw. cbn [firstn]. rewrite Em. exists m. inversion Hw; subst.
    repeat split; auto.
    + apply GetNode_self; auto. apply in_rev. rewrite <- walk_rev, Em. now left.
    + rewrite <- walk_keys. rewrite walk_rev, map_rev in Hall.
      apply Forall_rev in Hall. now rewrite rev_involutive in Hall.
Qed.

Lemma get_list_In (k : K) (v : V) (l : list (K * V)) :
  sortedE l -> In (k, v) l -> get_list k l = Some v.
Proof.
  unfold sortedE. induction 1 as [|[k0 v0] l Hs IH Hall]; [contradiction|].
  intros [E|Hin]; cbn [get_list].
  - injection E as -> ->. now rewrite (Cmp_refl k), Z.eqb_refl.
  - rewrite Forall_forall in Hall. specialize (Hall _ Hin). simpl in Hall.
    destruct (Z.eqb_spec (Cmp k0 k) 0); [lia|auto].
Qed.

Lemma combine_fst_snd {A B : Type} (l : list (A * B)) :
  combine (map fst l) (map snd l) = l.
Proof. induction l as [|[a b] l IH]; simpl; congruence. Qed.

(** X5.  [Keys] and [Values] of a tree that satisfies the invariants have
    [Size] elements each, the keys are strictly ascending, and the value at
    each position is the one [Get] returns for the key at that position. *)
Theorem X5_keys_values (t : Tree) :
  valid t -> card t <= maxNodes ->
  exists ks vs,
    Keys t = Some ks /\ Values t = Some vs /\
    Z.of_nat (length ks) = Size t /\ Z.of_nat (length vs) = Size t /\
    ascending ks /\ Forall2 (fun k v => Get t k = v) ks vs.
Proof.
  intros Hv Hb. destruct (valid_wf t Hv Hb) as (Hi & Hs).
  exists (keysOf t), (map snd (elements t)).
  split; [now apply Keys_spec|]. split; [now apply Values_spec|].
  unfold keysOf. rewrite !length_map, elements_length, Size_card by auto.
  split; [reflexivity|]. split; [reflexivity|]. split; [now apply sortedE_keys|].
  assert (F : Forall (fun e => Get t (fst e) = snd e) (elements t)).
  { apply Forall_forall. intros [k v] Hin. cbn [fst snd].
    rewrite Get_spec by auto. now rewrite (get_list_In k v). }
  clear Hs. induction F as [|e l He _ IH]; simpl; constructor; auto.
Qed.

(** X6.  A bound [1 <= n]: [Least], [Greatest] and their key and value
    variants return the first [min n Size] nodes, keys or values of the
    ascending, respectively descending, sequence. *)
Theorem X6_bounded_prefix (t : Tree) (n : Z) :
  valid t -> card t <= maxNodes -> 1 <= n < 2 ^ 63 ->
  Keys t = Some (keysOf t) /\
  Least t n = Some (firstn (Z.to_nat (Z.min n (Size t))) (walk false t)) /\
  LeastKeys t n = Some (firstn (Z.to_nat (Z.min n (Size t))) (keysOf t)) /\
  LeastValues t n
    = Some (firstn (Z.to_nat (Z.min n (Size t))) (map snd (elements t))) /\
  Greatest t n = Some (firstn (Z.to_nat (Z.min n (Size t))) (rev (walk false t))) /\
  GreatestKeys t n = Some (firstn (Z.to_nat (Z.min n (Size t))) (rev (keysOf t))) /\
  GreatestValues t n
    = Some (firstn (Z.to_nat (Z.min n (Size t))) (rev (map snd (elements t)))).
Proof.
  intros Hv Hb Hn. destruct (valid_wf t Hv Hb) as (Hi & Hs).
  split; [now apply Keys_spec|].
  unfold Least, LeastKeys, LeastValues, Greatest, GreatestKeys, GreatestValues.
  rewrite !top_prefix by auto. rewrite walk_rev.
  assert (Wv : map snd (elements t) = map RootValue (walk false t))
    by (rewrite <- walk_elements, map_map; reflexivity).
  rewrite <- walk_keys, Wv, <- !map_rev, !firstn_map, !map_id.
  repeat split; reflexivity.
Qed.

Lemma top_map {R : Type} (t : Tree) (n : Z) (reversed : bool) (f : Tree -> R) :
  top t n reversed f = option_map (map f) (top t n reversed identity).
Proof.
  unfold top. destruct t as [|a l r cs k v]; [reflexivity|].
  destruct (_ <? 0); [reflexivity|].
  rewrite !forEachNode_spec by reflexivity. cbn [bind].
  pose proof (collect_spec f n (walk reversed (Node a l r cs k v)) []) as C1.
  pose proof (collect_spec identity n (walk reversed (Node a l r cs k v)) []) as C2.
  destruct (foldUntil _ _ _) as [r1 c1]. destruct (foldUntil _ _ _) as [r2 c2].
  cbn [fst app] in *. subst. cbn [option_map]. now rewrite map_id.
Qed.

(** X7.  The key and value variants of bounded extraction are the node
    variant followed by the accessors: on a tree whose cached sizes are
    sound, for every bound (positive or not), all six functions return,
    [LeastKeys] is [RootKey] of each node of [Least], [LeastValues] is
    [RootValue] of each, and likewise for [Greatest]. *)
Theorem X7_variants_agree (t : Tree) (n : Z) :
  sizeOK t -> card t <= maxNodes -> - 2 ^ 63 <= n < 2 ^ 63 ->
  exists least greatest,
    Least t n = Some least /\
    LeastKeys t n = Some (map RootKey least) /\
    LeastValues t n = Some (map RootValue least) /\
    Greatest t n = Some greatest /\
    GreatestKeys t n = Some (map RootKey greatest) /\
    GreatestValues t n = Some (map RootValue greatest).
Proof.
  intros Hok Hc Hn.
  assert (Hs : 0 <= Size t < 2 ^ 63).
  { rewrite (sizeOK_Size t Hok Hc). pose proof (card_nonneg t).
    unfold maxNodes in Hc. lia. }
  assert (Ht : forall reversed, exists nodes, top t n reversed identity = Some nodes).
  { intros reversed. destruct (isNil t) eqn:Nt.
    - apply isNil_elements in Nt. subst. now exists [].
    - rewrite top_spec by auto. eauto. }
  destruct (Ht false) as (least & El). destruct (Ht true) as (greatest & Eg).
  exists least, greatest.
  unfold LeastKeys, LeastValues, GreatestKeys, GreatestValues, Least, Greatest.
  rewrite (top_map t n false getKeyFunc), (top_map t n false getValFunc),
    (top_map t n true getKeyFunc), (top_map t n true getValFunc), El, Eg.
  repeat split; reflexivity.
Qed.

Lemma foldUntil_collect (l acc : list (K * V)) :
  fst (foldUntil (fun e seen => (seen ++ [(fst e, snd e)], true)) l acc) = acc ++ l.
Proof.
  revert acc. induction l as [|[k v] l IH]; intros acc; cbn [foldUntil fst snd].
  - now rewrite app_nil_r.
  - rewrite IH, <- app_assoc. reflexivity.
Qed.

(** X8.  A callback that always continues is called by [ForEach] on every
    entry: collecting what it is given yields the pairs of [Keys] and
    [Values] position by position, and [ReverseForEach] yields them in the
    opposite order. *)
Theorem X8_foreach_all (t : Tree) :
  valid t -> card t <= maxNodes ->
  exists ks vs,
    Keys t = Some ks /\ Values t = Some vs /\
    ForEach t (fun k v seen => (seen ++ [(k, v)], true)) [] = Some (combine ks vs) /\
    ReverseForEach t (fun k v seen => (seen ++ [(k, v)], true)) []
      = Some (rev (combine ks vs)).
Proof.
  intros Hv Hb. destruct (valid_wf t Hv Hb) as (Hi & Hs).
  exists (keysOf t), (map snd (elements t)).
  split; [now apply Keys_spec|]. split; [now apply Values_spec|].
  unfold keysOf. rewrite combine_fst_snd. unfold ForEach, ReverseForEach.
  destruct (isNil t) eqn:Nt.
  - apply isNil_elements in Nt. subst. split; reflexivity.
  - rewrite !forEach_spec by auto. rewrite !foldUntil_collect. split; reflexivity.
Qed.

Lemma elements_nil (t : Tree) : elements t = [] -> t = Nil.
Proof.
  destruct t as [|a l r cs k v]; [reflexivity|]. simpl. intros E.
  symmetry in E. now apply app_cons_not_nil in E.
Qed.

Lemma ascending_count (key : K) (ks : list K) :
  ascending ks -> Z.of_nat (length (filter (fun x => Cmp x key =? 0) ks)) <= 1.
Proof.
  unfold ascending. induction 1 as [|a ks Hs IH Hall]; simpl; [lia|].
  destruct (Z.eqb_spec (Cmp a key) 0); [|exact IH].
  assert (E : filter (fun x => Cmp x key =? 0) ks = []).
  { clear IH Hs. induction Hall as [|b ks Hb _ IH']; simpl; auto.
    destruct (Z.eqb_spec (Cmp b key) 0); [exfalso; order a b key|exact IH']. }
  rewrite E. simpl. lia.
Qed.

Lemma removeEach_all (ks : list K) (t : Tree) :
  wf t -> card t <= maxNodes -> Permutation ks (keysOf t) ->
  removeEach t ks = Some (Nil, true).
Proof.
  revert t. induction ks as [|k ks IH]; intros t (Hi & Hs) Hb Hp.
  - apply Permutation_nil in Hp. unfold keysOf in Hp.
    apply map_eq_nil in Hp. apply elements_nil in Hp. now subst.
  - cbn [removeEach].
    assert (Hin : In k (keysOf t)) by (eapply Permutation_in; [exact Hp|now left]).
    assert (Hm : mem_list k (elements t) = true).
    { unfold mem_list. destruct (get_list k (elements t)) eqn:G; auto.
      apply get_list_none_inv in G. rewrite Forall_forall in G.
      unfold keysOf in Hin. apply in_map_iff in Hin.
      destruct Hin as (e & <- & He). specialize (G e He).
      now rewrite (Cmp_refl (fst e)) in G. }
    rewrite mem_list_GetNode in Hm by auto.
    apply negb_true_iff in Hm. rewrite Hm.
    destruct (Remove_spec t k Hi Hs Hb) as (t' & rem & -> & Hi' & Ee & Er & Hc).
    rewrite mem_list_GetNode, Hm in Er by auto. subst rem. cbn [bind negb] in *.
    apply IH.
    + split; auto. rewrite Ee. now apply del_list_sorted.
    + lia.
    + unfold keysOf at 1. rewrite Ee, del_list_filter by auto. fold (keysOf t).
      pose proof (filter_perm (fun x => negb (Cmp x k =? 0)) _ _ Hp) as Hf.
      pose proof (filter_perm (fun x => Cmp x k =? 0) _ _ Hp) as Hg.
      apply Permutation_length in Hg.
      pose proof (ascending_count k (keysOf t) (sortedE_keys _ Hs)) as Hcount.
      cbn [filter] in Hf, Hg. rewrite (Cmp_refl k) in Hf, Hg.
      cbn [Z.eqb negb length] in Hf, Hg.
      assert (Hnone : forall x, In x ks -> negb (Cmp x k =? 0) = true).
      { intros x Hx. destruct (Cmp x k =? 0) eqn:Ex; auto.
        assert (In x (filter (fun x => Cmp x k =? 0) ks))
          by (apply filter_In; auto).
        destruct (filter (fun x => Cmp x k =? 0) ks); [contradiction|].
        cbn [length] in Hg. lia. }
      assert (Hall : filter (fun x => negb (Cmp x k =? 0)) ks = ks).
      { clear - Hnone. induction ks as [|x ks IH']; simpl; auto.
        rewrite (Hnone x) by now left. f_equal. apply IH'.
        intros y Hy. apply Hnone. now right. }
      now rewrite Hall in Hf.
Qed.

(** X9.  The loop of [TestTree2Remove] on any tree that satisfies the
    invariants: with the keys of [Keys] taken in any order, each key is
    found by [GetNode], each [Remove] reports a removal, and the tree left
    at the end is nil. *)
Theorem X9_remove_every_key (t : Tree) (ks0 ks : list K) :
  valid t -> card t <= maxNodes ->
  Keys t = Some ks0 -> Permutation ks ks0 ->
  removeEach t ks = Some (Nil, true).
Proof.
  intros Hv Hb Hk Hp. pose proof (valid_wf t Hv Hb) as Hw.
  rewrite Keys_spec in Hk by (auto; apply Hw). injection Hk as <-.
  now apply removeEach_all.
Qed.

Lemma ins_list_perm (key : K) (val : V) (l : list (K * V)) :
  mem_list key l = false -> Permutation (ins_list key val l) ((key, val) :: l).
Proof.
  unfold mem_list. induction l as [|[k v] l IH]; simpl; intros Hm; auto.
  destruct (Z.eqb_spec (Cmp k key) 0); [discriminate|].
  destruct (Cmp k key <? 0); auto.
  eapply perm_trans; [apply perm_skip, IH, Hm|apply perm_swap].
Qed.

Lemma insertAll_perm (kvs l : list (K * V)) :
  distinctKeys (map fst kvs) ->
  Forall (fun e => Forall (fun k => Cmp (fst e) k <> 0) (map fst kvs)) l ->
  Permutation
    (fold_left absStep (map (fun kv => OpInsert (fst kv) (snd kv)) kvs) l)
    (rev kvs ++ l).
Proof.
  unfold distinctKeys.
  revert l. induction kvs as [|[k v] kvs IH]; intros l Hd Hl; cbn [map fold_left].
  - apply Permutation_refl.
  - cbn [map fst] in Hd. inversion Hd as [|? ? Hk Hd']; subst.
    cbn [absStep fst snd].
    eapply perm_trans.
    + apply IH; auto.
      apply (ins_list_keys k v l
               (fun x => Forall (fun k' => Cmp x k' <> 0) (map fst kvs))); auto.
      eapply Forall_impl; [|exact Hl]. cbn [map fst]; intros e He.
      now inversion He.
    + cbn [rev]. rewrite <- app_assoc. cbn [app].
      apply Permutation_app_head. apply ins_list_perm.
      unfold mem_list. rewrite get_list_none; auto.
      eapply Forall_impl; [|exact Hl]. cbn [map fst]; intros e He.
      now inversion He.
Qed.

Lemma sorted_perm_eq (l1 l2 : list (K * V)) :
  sortedE l1 -> sortedE l2 -> Permutation l1 l2 -> l1 = l2.
Proof.
  unfold sortedE. intros S1. revert l2.
  induction S1 as [|a l1 S1 IH F1]; intros l2 S2 Hp.
  - apply Permutation_nil in Hp. now subst.
  - destruct S2 as [|b l2 S2 F2].
    + apply Permutation_sym, Permutation_nil in Hp. discriminate.
    + assert (Hab : a = b).
      { assert (Ha : In a (b :: l2)) by (eapply Permutation_in; [exact Hp|now left]).
        assert (Hb : In b (a :: l1))
          by (eapply Permutation_in; [apply Permutation_sym, Hp|now left]).
        destruct Ha as [Ha|Ha]; [auto|]. destruct Hb as [Hb|Hb]; [auto|].
        rewrite Forall_forall in F1, F2.
        specialize (F1 _ Hb). specialize (F2 _ Ha).
        exfalso. order (fst a) (fst b) (fst a). }
      subst b. f_equal. apply IH; auto. now apply Permutation_cons_inv in Hp.
Qed.

(** X10.  The order of insertion does not show: two sequences of pairs with
    pairwise distinct keys that are permutations of each other give trees
    with the same [Keys], the same [Values] and the same [Get], the keys
    being a permutation of the inserted ones. *)
Theorem X10_insertion_order (kvs kvs' : list (K * V)) :
  Z.of_nat (length kvs) <= maxNodes ->
  distinctKeys (map fst kvs) -> distinctKeys (map fst kvs') ->
  Permutation kvs kvs' ->
  exists t t' ks,
    insertAll kvs = Some t /\ insertAll kvs' = Some t' /\
    Keys t = Some ks /\ Keys t' = Some ks /\ Values t' = Values t /\
    Permutation ks (map fst kvs) /\
    forall key, Get t' key = Get t key.
Proof.
  intros Hb Hd Hd' Hp. unfold insertAll.
  assert (Hb' : Z.of_nat (length kvs') <= maxNodes)
    by (rewrite <- (Permutation_length Hp); exact Hb).
  destruct (run_wf (map (fun kv => OpInsert (fst kv) (snd kv)) kvs))
    as (t & E & (Hi & Hs) & Hc & Ee); [now rewrite length_map|].
  destruct (run_wf (map (fun kv => OpInsert (fst kv) (snd kv)) kvs'))
    as (t' & E' & (Hi' & Hs') & Hc' & Ee'); [now rewrite length_map|].
  pose proof (insertAll_perm kvs [] Hd ltac:(constructor)) as P1.
  pose proof (insertAll_perm kvs' [] Hd' ltac:(constructor)) as P2.
  rewrite <- Ee, app_nil_r in P1. rewrite <- Ee', app_nil_r in P2.
  assert (Hel : elements t' = elements t).
  { apply sorted_perm_eq; auto.
    eapply perm_trans; [exact P2|]. eapply perm_trans; [|apply Permutation_sym, P1].
    eapply perm_trans; [apply Permutation_sym, Permutation_rev|].
    eapply perm_trans; [apply Permutation_sym, Hp|apply Permutation_rev]. }
  exists t, t', (keysOf t). split; [exact E|]. split; [exact E'|].
  split; [now apply Keys_spec|].
  split; [rewrite Keys_spec by auto; unfold keysOf; now rewrite Hel|].
  split; [rewrite !Values_spec by auto; now rewrite Hel|].
  split.
  - unfold keysOf. eapply perm_trans; [apply Permutation_map, P1|].
    apply Permutation_map, Permutation_sym, Permutation_rev.
  - intros key. rewrite !Get_spec by auto. now rewrite Hel.
Qed.

Lemma inv_height (t : Tree) :
  inv t -> 4 ^ Z.of_nat (height t) <= 3 ^ Z.of_nat (height t) * (card t + 1).
Proof.
  induction t as [|a l IHl r IHr cs k v]; cbn [inv height card].
  - intros _. simpl. lia.
  - intros (_ & B1 & B2 & Hl & Hr). specialize (IHl Hl). specialize (IHr Hr).
    nonnegs. unfold treeDelta in *.
    rewrite Nat2Z.inj_succ, !Z.pow_succ_r by lia.
    destruct (Nat.max_spec (height l) (height r)) as [(_ & ->)|(_ & ->)].
    + assert (0 < 3 ^ Z.of_nat (height r)) by (apply Z.pow_pos_nonneg; lia).
      nia.
    + assert (0 < 3 ^ Z.of_nat (height l)) by (apply Z.pow_pos_nonneg; lia).
      nia.
Qed.

(** X11.  Logarithmic height.  In a tree that satisfies the invariants a
    child weighs at most three quarters of its parent, so the height [h]
    satisfies [(4/3)^h <= Size + 1]; this bounds the depth of the recursion
    of [GetNode], [Insert] and [Remove]. *)
Theorem X11_height_bound (t : Tree) :
  valid t -> card t <= maxNodes ->
  4 ^ Z.of_nat (height t) <= 3 ^ Z.of_nat (height t) * (Size t + 1).
Proof.
  intros Hv Hb. destruct (valid_wf t Hv Hb) as (Hi & Hs).
  rewrite Size_card by auto. now apply inv_height.
Qed.

Lemma balance_cells (rightHeavy : bool) (t t' : Tree) :
  balance rightHeavy t = Some t' -> cells t' = cells t.
Proof.
  unfold balance. destruct t as [|a l r cs k v]; [discriminate|].
  destruct rightHeavy; cbn [orient];
    [destruct r as [|ca b z ccs ck cv]|destruct l as [|ca z b ccs ck cv]];
    (destruct (_ >=? _); [intros [= <-]; reflexivity|]);
    (destruct (_ <? _); [try discriminate|try destruct b; try discriminate]);
    intros [= <-]; simpl;
    repeat (rewrite <- app_assoc; simpl); reflexivity.
Qed.

(** X12.  [Insert] and the nodes.  Whatever rotations take place, every
    node keeps its key, and its value unless it is the one replaced: when
    the key is new the cells of the tree, from left to right, are the old
    ones with one cell added, at the address handed to the call; when the
    key is there, they are the old ones with the value of one cell, whose
    key compares equal, overwritten. *)
Theorem X12_insert_cells (p : positive) (t t' : Tree) (key : K) (val : V) (added : bool) :
  Insert p t key val = Some (t', added) ->
  if added then
    exists l1 l2, cells t = l1 ++ l2 /\ cells t' = l1 ++ (p, key, val) :: l2
  else
    exists l1 a k v l2,
      cells t = l1 ++ (a, k, v) :: l2 /\ Cmp k key = 0 /\
      cells t' = l1 ++ (a, k, val) :: l2.
Proof.
  revert t' added. induction t as [|a l IHl r IHr cs k v]; intros t' added.
  - intros [= <- <-]. exists [], []. split; reflexivity.
  - cbn [Insert]. rewrite Insert_guard. intros Hins.
    destruct (Z.eqb_spec (Cmp k key) 0) as [Ek|Ek].
    + injection Hins as <- <-. exists (cells l), a, k, v, (cells r). auto.
    + destruct (Cmp k key <? 0).
      * destruct (Insert p r key val) as [[r' added']|] eqn:Er; [|discriminate].
        specialize (IHr _ _ eq_refl). cbn [bind] in Hins.
        destruct added'; cbn [negb] in Hins.
        -- destruct (balance _ _) as [b|] eqn:Eb; [|discriminate].
           injection Hins as <- <-. apply balance_cells in Eb. rewrite Eb.
           destruct IHr as (m1 & m2 & E1 & E2). cbn [cells]. rewrite E1, E2.
           exists (cells l ++ (a, k, v) :: m1), m2.
           rewrite <- !app_assoc. split; reflexivity.
        -- injection Hins as <- <-.
           destruct IHr as (m1 & a0 & k0 & v0 & m2 & E1 & E0 & E2).
           cbn [cells]. rewrite E1, E2.
           exists (cells l ++ (a, k, v) :: m1), a0, k0, v0, m2.
           rewrite <- !app_assoc. repeat split; auto.
      * destruct (Insert p l key val) as [[l' added']|] eqn:El; [|discriminate].
        specialize (IHl _ _ eq_refl). cbn [bind] in Hins.
        destruct added'; cbn [negb] in Hins.
        -- destruct (balance _ _) as [b|] eqn:Eb; [|discriminate].
           injection Hins as <- <-. apply balance_cells in Eb. rewrite Eb.
           destruct IHl as (m1 & m2 & E1 & E2). cbn [cells]. rewrite E1, E2.
           exists m1, (m2 ++ (a, k, v) :: cells r).
           rewrite <- !app_assoc. split; reflexivity.
        -- injection Hins as <- <-.
           destruct IHl as (m1 & a0 & k0 & v0 & m2 & E1 & E0 & E2).
           cbn [cells]. rewrite E1, E2.
           exists m1, a0, k0, v0, (m2 ++ (a, k, v) :: cells r).
           rewrite <- !app_assoc. repeat split; auto.
Qed.

Lemma Keys_rec_spec (t : Tree) : isNil t = false -> Keys_rec t = Some (keysOf t).
Proof.
  unfold keysOf.
  induction t as [|a l IHl r IHr cs k v]; intros Hn; [discriminate|].
  cbn [Keys_rec elements].
  assert (Gl : (if isNil l then Some [] else Keys_rec l) = Some (map fst (elements l)))
    by (destruct l; [reflexivity|now apply IHl]).
  rewrite Gl. cbn [bind]. rewrite map_app. cbn [map fst].
  destruct r as [|ra rl rr rcs rk rv].
  - reflexivity.
  - cbn [isNil]. rewrite IHr by reflexivity. cbn [bind].
    rewrite <- app_assoc. reflexivity.
Qed.

Lemma Values_rec_spec (t : Tree) :
  isNil t = false -> Values_rec t = Some (map snd (elements t)).
Proof.
  induction t as [|a l IHl r IHr cs k v]; intros Hn; [discriminate|].
  cbn [Values_rec elements].
  assert (Gl : (if isNil l then Some [] else Values_rec l)
               = Some (map snd (elements l)))
    by (destruct l; [reflexivity|now apply IHl]).
  rewrite Gl. cbn [bind]. rewrite map_app. cbn [map snd].
  destruct r as [|ra rl rr rcs rk rv].
  - reflexivity.
  - cbn [isNil]. rewrite IHr by reflexivity. cbn [bind].
    rewrite <- app_assoc. reflexivity.
Qed.

Lemma LeastNode_rec_spec (t : Tree) : LeastNode_rec t = hd Nil (walk false t).
Proof.
  induction t as [|a l IHl r IHr cs k v]; [reflexivity|].
  cbn [LeastNode_rec walk]. destruct l as [|la ll lr lcs lk lv]; [reflexivity|].
  cbn [isNil]. rewrite IHl.
  destruct (walk_cons false (Node la ll lr lcs lk lv) eq_refl) as (x & rest & ->).
  reflexivity.
Qed.

Lemma GreatestNode_rec_spec (t : Tree) : GreatestNode_rec t = hd Nil (walk true t).
Proof.
  induction t as [|a l IHl r IHr cs k v]; [reflexivity|].
  cbn [GreatestNode_rec walk]. destruct r as [|ra rl rr rcs rk rv]; [reflexivity|].
  cbn [isNil]. rewrite IHr.
  destruct (walk_cons true (Node ra rl rr rcs rk rv) eq_refl) as (x & rest & ->).
  reflexivity.
Qed.

(** X13.  The two revisions agree.  On a non-empty tree that satisfies the
    invariants the [Keys] and [Values] built on [top] return what the
    recursive ones return, and on every such tree so do [LeastNode] and
    [GreatestNode]; on the nil tree the recursive [Keys] and [Values]
    panic where the ones built on [top] return an empty slice. *)
Theorem X13_revisions_agree (t : Tree) :
  valid t -> card t <= maxNodes ->
  (isNil t = false -> Keys t = Keys_rec t /\ Values t = Values_rec t) /\
  LeastNode t = Some (LeastNode_rec t) /\
  GreatestNode t = Some (GreatestNode_rec t) /\
  Keys Nil = Some [] /\ Keys_rec Nil = None /\
  Values Nil = Some [] /\ Values_rec Nil = None.
Proof.
  intros Hv Hb. destruct (valid_wf t Hv Hb) as (Hi & Hs).
  split; [|split; [|split; [|repeat split]]].
  - intros Hn. rewrite Keys_spec, Values_spec by auto.
    now rewrite Keys_rec_spec, Values_rec_spec.
  - rewrite LeastNode_rec_spec. unfold LeastNode, Least.
    destruct t as [|a l r cs k v]; [reflexivity|].
    pose proof (card_nonneg (Node a l r cs k v)). unfold maxNodes in Hb.
    rewrite top_spec; [|reflexivity|rewrite Size_card by auto; lia|lia].
    change (Z.to_nat (Z.max 1 1)) with 1%nat. cbn [bind].
    destruct (walk_cons false (Node a l r cs k v) eq_refl) as (x & rest & ->).
    reflexivity.
  - rewrite GreatestNode_rec_spec. unfold GreatestNode, Greatest.
    destruct t as [|a l r cs k v]; [reflexivity|].
    pose proof (card_nonneg (Node a l r cs k v)). unfold maxNodes in Hb.
    rewrite top_spec; [|reflexivity|rewrite Size_card by auto; lia|lia].
    change (Z.to_nat (Z.max 1 1)) with 1%nat. cbn [bind].
    destruct (walk_cons true (Node a l r cs k v) eq_refl) as (x & rest & ->).
    reflexivity.
Qed.

Lemma del_ins_list (key : K) (val : V) (l : list (K * V)) :
  mem_list key l = false -> del_list key (ins_list key val l) = l.
Proof.
  unfold mem_list. induction l as [|[k v] l IH]; cbn [ins_list get_list]; intros Hm.
  - cbn [del_list]. now rewrite (Cmp_refl key), Z.eqb_refl.
  - destruct (Z.eqb_spec (Cmp k key) 0) as [E|E]; [discriminate|].
    destruct (Z.ltb_spec (Cmp k key) 0) as [L|L]; cbn [del_list].
    + destruct (Z.eqb_spec (Cmp k key) 0); [contradiction|].
      destruct (Z.ltb_spec (Cmp k key) 0); [|lia]. now rewrite IH.
    + now rewrite (Cmp_refl key), Z.eqb_refl.
Qed.

(** X14.  Insert, then remove.  Inserting a key that [GetNode] does not
    find and removing it again reports an addition and a removal and gives
    a tree that satisfies the invariants with the [Keys], [Values], [Size]
    and [Get] of the tree before, whatever rotations took place. *)
Theorem X14_insert_then_remove (p : positive) (t : Tree) (key : K) (val : V) :
  valid t -> card t < maxNodes -> isNil (GetNode t key) = true ->
  exists t1 t2,
    Insert p t key val = Some (t1, true) /\ Remove t1 key = Some (t2, true) /\
    valid t2 /\ Keys t2 = Keys t /\ Values t2 = Values t /\ Size t2 = Size t /\
    forall key', Get t2 key' = Get t key'.
Proof.
  intros Hv Hb Hn. destruct (valid_wf t Hv ltac:(lia)) as (Hi & Hs).
  destruct (Insert_inv p t key val Hi Hb) as (t1 & added & E1 & Hi1 & Hc1).
  destruct (Insert_elements _ _ _ _ _ _ E1 Hs) as (Ee1 & Ea).
  assert (Hm : mem_list key (elements t) = false)
    by (rewrite mem_list_GetNode, Hn by auto; reflexivity).
  rewrite Hm in Ea. cbn [negb] in Ea. subst added.
  assert (Hs1 : sortedE (elements t1)) by (rewrite Ee1; now apply ins_list_sorted).
  destruct (Remove_spec t1 key Hi1 Hs1 ltac:(lia)) as (t2 & rem & E2 & Hi2 & Ee2 & Er & Hc2).
  rewrite Ee1, del_ins_list in Ee2 by auto.
  rewrite Ee1 in Er. unfold mem_list in Er. rewrite get_list_ins in Er.
  rewrite (Cmp_refl key), Z.eqb_refl in Er. subst rem.
  assert (Hs2 : sortedE (elements t2)) by now rewrite Ee2.
  exists t1, t2. split; [exact E1|]. split; [exact E2|].
  split; [apply wf_valid; [split; auto|lia]|].
  split; [rewrite !Keys_spec by (auto; lia); unfold keysOf; now rewrite Ee2|].
  split; [rewrite !Values_spec by (auto; lia); now rewrite Ee2|].
  split; [rewrite !Size_card by (auto; lia); lia|].
  intros key'. rewrite !Get_spec by auto. now rewrite Ee2.
Qed.

Lemma balance_id (rightHeavy : bool) a l r cs k v :
  inv (Node a l r cs k v) -> card l + card r < maxNodes ->
  balance rightHeavy (Node a l r cs k v) = Some (Node a l r cs k v).
Proof.
  intros Hi Hb. open_node Hi.
  unfold balance.
  destruct rightHeavy; cbn [orient] in *;
    [destruct r as [|ca b z ccs ck cv]; [|open_node Hinv0]
    |destruct l as [|ca z b ccs ck cv]; [|open_node Hinv]];
    cbn [card] in *; nonnegs; norm; (case_geb; [reflexivity|]);
    exfalso; unfold treeDelta in *; lia.
Qed.

(** X15.  What one call of [balance] does.  Given a node over two subtrees
    that satisfy the invariants, with a sound [childSize], whose heavy side
    weighs at most three more than three times the other and whose light
    side weighs at most three times the heavy one (the state after one
    insertion into the heavy side or one removal from the light one):
    [balance] does not panic, the tree it returns satisfies the invariants,
    has all nodes of the old one with their keys and values in the same
    order, and has the same size; if the node was balanced it is returned
    as it is. *)
Theorem X15_balance_repairs (rightHeavy : bool) a l r cs k v :
  valid l -> valid r -> bst (Node a l r cs k v) ->
  cs = Size l + Size r -> card l + card r < maxNodes ->
  (let '(x, c) := orient rightHeavy l r in
   Size c + 1 <= 3 * (Size x + 1) + 3 /\ Size x + 1 <= 3 * (Size c + 1)) ->
  exists t',
    balance rightHeavy (Node a l r cs k v) = Some t' /\ valid t' /\
    cells t' = cells (Node a l r cs k v) /\
    Size t' = Size l + Size r + 1 /\
    (balanced (Node a l r cs k v) -> t' = Node a l r cs k v).
Proof.
  intros Hl Hr Hb Hcs Hc Hnear. nonnegs.
  destruct (valid_wf l Hl ltac:(lia)) as (Il & Sl).
  destruct (valid_wf r Hr ltac:(lia)) as (Ir & Sr).
  rewrite !Size_card in * by (auto; lia).
  assert (Hnear' : let '(x, c) := orient rightHeavy l r in
                   card c + 1 <= 3 * (card x + 1) + 3 /\
                   card x + 1 <= 3 * (card c + 1)).
  { destruct rightHeavy; cbn [orient] in *;
      rewrite !Size_card in Hnear by (auto; lia); exact Hnear. }
  destruct (balance_inv rightHeavy a l r cs k v Il Ir Hcs Hc Hnear')
    as (t' & E & Hi' & Hc').
  exists t'. split; [exact E|].
  assert (Hs' : sortedE (elements t')).
  { rewrite (balance_elements _ _ _ E). now apply bst_sorted. }
  split; [apply wf_valid; [split; auto|lia]|].
  split; [now apply (balance_cells rightHeavy)|].
  split; [rewrite Size_card by (auto; lia); exact Hc'|].
  intros Hbal.
  assert (Hinv : inv (Node a l r cs k v)).
  { cbn [balanced] in Hbal. destruct Hbal as (B1 & B2 & _).
    rewrite !Size_card in B1, B2 by (auto; lia).
    cbn [inv]. repeat split; auto. }
  rewrite (balance_id rightHeavy a l r cs k v Hinv Hc) in E. now injection E.
Qed.

Lemma lastValue_inserted (k : K) (v : V) (kvs : list (K * V)) (cur : option V) :
  In (k, v) kvs \/ cur <> None ->
  lastValue k (map (fun kv => OpInsert (fst kv) (snd kv)) kvs) cur <> None.
Proof.
  revert cur. induction kvs as [|[k0 v0] kvs IH]; intros cur Hin; cbn [map lastValue].
  - destruct Hin as [[]|Hc]. exact Hc.
  - cbn [fst snd]. apply IH. destruct Hin as [[E|Hin]|Hc].
    + injection E as -> ->. right. now rewrite (Cmp_refl k), Z.eqb_refl.
    + now left.
    + right. now destruct (Cmp k0 k =? 0).
Qed.

(** X16.  The checks of [TestTree2Insert] and [TestTreeGet] for any pairs:
    after the insertions [GetNode] finds every key that was inserted and
    every key that [Keys] returns, and [Keys] is strictly ascending. *)
Theorem X16_inserted_found (kvs : list (K * V)) (k : K) (v : V) :
  Z.of_nat (length kvs) <= maxNodes -> In (k, v) kvs ->
  exists t ks,
    insertAll kvs = Some t /\ isNil (GetNode t k) = false /\
    Keys t = Some ks /\ ascending ks /\
    Forall (fun k' => isNil (GetNode t k') = false) ks.
Proof.
  intros Hb Hin. unfold insertAll.
  set (ops := map (fun kv => OpInsert (fst kv) (snd kv)) kvs).
  destruct (run_wf ops) as (t & E & (Hi & Hs) & Hc & Ee);
    [unfold ops; now rewrite length_map|].
  exists t, (keysOf t). split; [exact E|].
  split; [|split; [now apply Keys_spec|split; [now apply sortedE_keys|]]].
  - pose proof (get_list_run k ops [] ltac:(constructor)) as Hg.
    rewrite <- Ee in Hg. cbn [get_list] in Hg.
    pose proof (lastValue_inserted k v kvs None (or_introl Hin)) as Hl.
    fold ops in Hl. rewrite <- Hg in Hl.
    pose proof (GetNode_spec t k Hs) as G.
    destruct (GetNode t k); [contradiction|reflexivity].
  - rewrite <- walk_keys, Forall_map. apply Forall_forall. intros x Hx.
    rewrite (GetNode_self t x (sorted_bst t Hs) Hx).
    pose proof (walk_nodes false t) as Hw. rewrite Forall_forall in Hw. auto.
Qed.

End WBTree.

(** * Lookup by node *)

(** X3.  Lookup by node.  In any tree, and for any comparison, a non-nil
    result of [GetNode] is a node of the tree whose key compares equal to
    the key asked for.  In a search tree over a consistent order every node
    is the one [GetNode] returns for its own key, and when [GetNode] returns
    nil no stored key compares equal. *)
Theorem X3_GetNode_nodes {K V : Type} `{Cmpable K} `{GoZero K} `{GoZero V}
    (t : Tree (K:=K) (V:=V)) (key : K) :
  (isNil (GetNode t key) = false ->
   In (GetNode t key) (walk false t) /\ Cmp (RootKey (GetNode t key)) key = 0) /\
  (CmpOrder K -> bst t ->
   (forall x, In x (walk false t) -> GetNode t (RootKey x) = x) /\
   (isNil (GetNode t key) = true -> Forall (fun k => Cmp k key <> 0) (keysOf t))).
Proof.
  split.
  - apply GetNode_sound.
  - intros HO Hb. split.
    + intros x Hx. now apply GetNode_self.
    + now apply GetNode_absent.
Qed.

(** * The claims at [cmpUint] keys *)

(** C8.  Bounded extraction at the bound [0].  On a tree of one node
    [Least 0] and its variants return that node: one element, where the
    documented length is at most [n = 0]. *)
Lemma C8_Least_bound_zero :
  Least (K:=Z) (V:=Z) (Node 1 Nil Nil 0 5 50) 0 = Some [Node 1 Nil Nil 0 5 50] /\
  LeastKeys (K:=Z) (V:=Z) (Node 1 Nil Nil 0 5 50) 0 = Some [5] /\
  LeastValues (K:=Z) (V:=Z) (Node 1 Nil Nil 0 5 50) 0 = Some [50] /\
  Greatest (K:=Z) (V:=Z) (Node 1 Nil Nil 0 5 50) 0 = Some [Node 1 Nil Nil 0 5 50] /\
  GreatestKeys (K:=Z) (V:=Z) (Node 1 Nil Nil 0 5 50) 0 = Some [5] /\
  GreatestValues (K:=Z) (V:=Z) (Node 1 Nil Nil 0 5 50) 0 = Some [50].
Proof. repeat split; vm_compute; reflexivity. Qed.

Lemma C1_weight_balance_witness :
  Z.of_nat (length [OpInsert 5 50; OpInsert 4 40; OpInsert 3 30; OpRemove 4; OpRemove 42])
    <= maxNodes /\
  exists t : Tree (K:=Z) (V:=Z),
    run (firstn 5 [OpInsert 5 50; OpInsert 4 40; OpInsert 3 30; OpRemove 4; OpRemove 42])
      = Some t /\ balanced t.
Proof.
  split; [unfold maxNodes; simpl; lia|].
  apply (C1_weight_balance (K:=Z) (V:=Z)). unfold maxNodes; simpl; lia.
Defined.

Lemma C2_bst_order_witness :
  Z.of_nat (length [OpInsert 5 50; OpInsert 4 40; OpInsert 3 30; OpRemove 4; OpRemove 42])
    <= maxNodes /\
  Z.of_nat (length [(2, 20); (1, 10); (6, 60)]) <= maxNodes /\
  distinctKeys (map fst [(2, 20); (1, 10); (6, 60)]) /\
  (exists (t : Tree (K:=Z) (V:=Z)) ks,
     run (firstn 4 [OpInsert 5 50; OpInsert 4 40; OpInsert 3 30; OpRemove 4; OpRemove 42])
       = Some t /\ bst t /\
     Keys t = Some ks /\ ascending ks /\ distinctKeys ks) /\
  (exists (t : Tree (K:=Z) (V:=Z)) ks,
     run (map (fun kv => OpInsert (fst kv) (snd kv)) [(2, 20); (1, 10); (6, 60)]) = Some t /\
     Keys t = Some ks /\ ascending ks /\ distinctKeys ks /\
     length ks = length [(2, 20); (1, 10); (6, 60)] /\
     Permutation ks (map fst [(2, 20); (1, 10); (6, 60)])).
Proof.
  assert (Hd : distinctKeys (map fst [(2, 20); (1, 10); (6, 60)]))
    by (repeat constructor; cbv; lia).
  split; [unfold maxNodes; simpl; lia|].
  split; [unfold maxNodes; simpl; lia|].
  split; [exact Hd|].
  apply (C2_bst_order (K:=Z) (V:=Z)); try exact Hd; unfold maxNodes; simpl; lia.
Defined.

Lemma C3_size_bookkeeping_witness :
  Z.of_nat (length [OpInsert 5 50; OpInsert 5 55; OpInsert 4 40; OpRemove 4; OpRemove 42])
    <= maxNodes /\
  Size (K:=Z) (V:=Z) Nil = 0 /\
  exists t : Tree (K:=Z) (V:=Z),
    run (firstn 3 [OpInsert 5 50; OpInsert 5 55; OpInsert 4 40; OpRemove 4; OpRemove 42])
      = Some t /\ sizeOK t /\
    Size t = Z.of_nat (length (liveKeys
      (firstn 3 [OpInsert 5 50; OpInsert 5 55; OpInsert 4 40; OpRemove 4; OpRemove 42]) [])).
Proof.
  split; [unfold maxNodes; simpl; lia|].
  apply (C3_size_bookkeeping (K:=Z) (V:=Z)). unfold maxNodes; simpl; lia.
Defined.

Lemma C4_no_panic_witness :
  Z.of_nat (length [OpInsert 2 20; OpInsert 1 10; OpInsert 6 60; OpRemove 2]) < maxNodes /\
  - 2 ^ 63 <= -1 < 2 ^ 63 /\
  exists t : Tree (K:=Z) (V:=Z),
    run (firstn 4 [OpInsert 2 20; OpInsert 1 10; OpInsert 6 60; OpRemove 2]) = Some t /\
    (exists t' b, step 9%positive t (OpRemove 6) = Some (t', b)) /\
    Keys t <> None /\ Values t <> None /\
    Least t (-1) <> None /\ LeastKeys t (-1) <> None /\ LeastValues t (-1) <> None /\
    Greatest t (-1) <> None /\ GreatestKeys t (-1) <> None /\
    GreatestValues t (-1) <> None /\
    LeastNode t <> None /\ GreatestNode t <> None /\
    (forall (S : Type) (f : Z -> Z -> S -> S * bool) (s : S),
       ForEach t f s <> None /\ ReverseForEach t f s <> None).
Proof.
  split; [unfold maxNodes; simpl; lia|].
  split; [lia|].
  apply (C4_no_panic (K:=Z) (V:=Z)
           [OpInsert 2 20; OpInsert 1 10; OpInsert 6 60; OpRemove 2] 4%nat (-1) 7
           (OpRemove 6) 9%positive);
    [unfold maxNodes; simpl; lia|lia].
Defined.

Lemma C5_get_latest_witness :
  Z.of_nat (length [OpInsert 5 50; OpInsert 5 55; OpInsert 4 40; OpRemove 4]) <= maxNodes /\
  exists t : Tree (K:=Z) (V:=Z),
    run [OpInsert 5 50; OpInsert 5 55; OpInsert 4 40; OpRemove 4] = Some t /\
    Get t 5 = match lastValue 5 [OpInsert 5 50; OpInsert 5 55; OpInsert 4 40; OpRemove 4] None with
              | Some v => v
              | None => zero
              end /\
    (lastValue 5 [OpInsert 5 50; OpInsert 5 55; OpInsert 4 40; OpRemove 4] None = None ->
     GetNode t 5 = Nil) /\
    (forall v,
       lastValue 5 [OpInsert 5 50; OpInsert 5 55; OpInsert 4 40; OpRemove 4] None = Some v ->
       isNil (GetNode t 5) = false).
Proof.
  split; [unfold maxNodes; simpl; lia|].
  apply (C5_get_latest (K:=Z) (V:=Z)). unfold maxNodes; simpl; lia.
Defined.

Lemma C6_insert_existing_witness :
  isNil (GetNode (K:=Z) (V:=Z)
           (Node 1 (Node 2 Nil Nil 0 1 10) (Node 3 Nil Nil 0 6 60) 2 2 20) 6) = false /\
  exists t',
    Insert 4%positive (Node 1 (Node 2 Nil Nil 0 1 10) (Node 3 Nil Nil 0 6 60) 2 2 20) 6 66
      = Some (t', false) /\
    addrOf t' = addrOf (Node 1 (Node 2 Nil Nil 0 1 10) (Node 3 Nil Nil 0 6 60) 2 2 20) /\
    shapeOf t' = shapeOf (Node 1 (Node 2 Nil Nil 0 1 10) (Node 3 Nil Nil 0 6 60) 2 2 20) /\
    Size t' = Size (Node 1 (Node 2 Nil Nil 0 1 10) (Node 3 Nil Nil 0 6 60) 2 2 20) /\
    Get t' 6 = 66.
Proof.
  split; [reflexivity|].
  apply (C6_insert_existing (K:=Z) (V:=Z)). reflexivity.
Defined.

Lemma C7_remove_absent_witness :
  isNil (GetNode (K:=Z) (V:=Z)
           (Node 1 (Node 2 Nil Nil 0 1 10) (Node 3 Nil Nil 0 6 60) 2 2 20) 42) = true /\
  exists t',
    Remove (Node 1 (Node 2 Nil Nil 0 1 10) (Node 3 Nil Nil 0 6 60) 2 2 20) 42
      = Some (t', false) /\
    t' = Node 1 (Node 2 Nil Nil 0 1 10) (Node 3 Nil Nil 0 6 60) 2 2 20 /\
    addrOf t' = addrOf (Node 1 (Node 2 Nil Nil 0 1 10) (Node 3 Nil Nil 0 6 60) 2 2 20) /\
    Size t' = Size (Node 1 (Node 2 Nil Nil 0 1 10) (Node 3 Nil Nil 0 6 60) 2 2 20) /\
    Keys t' = Keys (Node 1 (Node 2 Nil Nil 0 1 10) (Node 3 Nil Nil 0 6 60) 2 2 20).
Proof.
  split; [reflexivity|].
  apply (C7_remove_absent (K:=Z) (V:=Z)). reflexivity.
Defined.

Lemma C9_foreach_order_witness :
  bst (K:=Z) (V:=Z) (Node 1 (Node 2 Nil Nil 0 1 10) (Node 3 Nil Nil 0 6 60) 2 2 20) /\
  ForEach (Node 1 (Node 2 Nil Nil 0 1 10) (Node 3 Nil Nil 0 6 60) 2 2 20)
    (fun k v seen => (seen ++ [(k, v)], k <? 2)) []
  = Some (fst (foldUntil (fun e seen => (seen ++ [(fst e, snd e)], fst e <? 2))
                 (elements (Node 1 (Node 2 Nil Nil 0 1 10) (Node 3 Nil Nil 0 6 60) 2 2 20))
                 [])).
Proof.
  assert (Hb : bst (K:=Z) (V:=Z)
                 (Node 1 (Node 2 Nil Nil 0 1 10) (Node 3 Nil Nil 0 6 60) 2 2 20))
    by (cbv; intuition (auto; lia)).
  split; [exact Hb|].
  apply (C9_foreach_order (K:=Z) (V:=Z)
           (Node 1 (Node 2 Nil Nil 0 1 10) (Node 3 Nil Nil 0 6 60) 2 2 20)
           (fun k v seen => (seen ++ [(k, v)], k <? 2)) [] Hb).
Defined.

Lemma C10_nonpositive_bound_witness :
  isNil (K:=Z) (V:=Z) (Node 1 (Node 2 Nil Nil 0 1 10) (Node 3 Nil Nil 0 6 60) 2 2 20) = false /\
  sizeOK (K:=Z) (V:=Z) (Node 1 (Node 2 Nil Nil 0 1 10) (Node 3 Nil Nil 0 6 60) 2 2 20) /\
  card (K:=Z) (V:=Z) (Node 1 (Node 2 Nil Nil 0 1 10) (Node 3 Nil Nil 0 6 60) 2 2 20) <= maxNodes /\
  - 2 ^ 63 <= -3 <= 0 /\
  exists x y,
    hd_error (walk false (Node 1 (Node 2 Nil Nil 0 1 10) (Node 3 Nil Nil 0 6 60) 2 2 20))
      = Some x /\
    hd_error (walk true (Node 1 (Node 2 Nil Nil 0 1 10) (Node 3 Nil Nil 0 6 60) 2 2 20))
      = Some y /\
    Least (Node 1 (Node 2 Nil Nil 0 1 10) (Node 3 Nil Nil 0 6 60) 2 2 20) (-3) = Some [x] /\
    LeastKeys (Node 1 (Node 2 Nil Nil 0 1 10) (Node 3 Nil Nil 0 6 60) 2 2 20) (-3)
      = Some [RootKey x] /\
    LeastValues (Node 1 (Node 2 Nil Nil 0 1 10) (Node 3 Nil Nil 0 6 60) 2 2 20) (-3)
      = Some [RootValue x] /\
    Greatest (Node 1 (Node 2 Nil Nil 0 1 10) (Node 3 Nil Nil 0 6 60) 2 2 20) (-3) = Some [y] /\
    GreatestKeys (Node 1 (Node 2 Nil Nil 0 1 10) (Node 3 Nil Nil 0 6 60) 2 2 20) (-3)
      = Some [RootKey y] /\
    GreatestValues (Node 1 (Node 2 Nil Nil 0 1 10) (Node 3 Nil Nil 0 6 60) 2 2 20) (-3)
      = Some [RootValue y].
Proof.
  assert (Hs : sizeOK (K:=Z) (V:=Z)
                 (Node 1 (Node 2 Nil Nil 0 1 10) (Node 3 Nil Nil 0 6 60) 2 2 20))
    by (vm_compute; repeat split; reflexivity).
  assert (Hc : card (K:=Z) (V:=Z)
                 (Node 1 (Node 2 Nil Nil 0 1 10) (Node 3 Nil Nil 0 6 60) 2 2 20) <= maxNodes)
    by (vm_compute; discriminate).
  split; [reflexivity|]. split; [exact Hs|]. split; [exact Hc|]. split; [lia|].
  apply (C10_nonpositive_bound (K:=Z) (V:=Z)); [reflexivity|exact Hs|exact Hc|lia].
Defined.

(** * The further properties at [cmpUint] keys *)

(** The tree of [testTree2], with the values ten times the keys. *)
Notation "'sampleTree'" :=
  (Node (K:=Z) (V:=Z) 1 (Node 2 Nil Nil 0 1 10) (Node 3 Nil Nil 0 6 60) 2 2 20).

Lemma sampleTree_valid : valid sampleTree /\ card sampleTree < maxNodes.
Proof.
  unfold valid. cbv. repeat split; try reflexivity; try discriminate.
Qed.

Lemma X1_insert_step_witness :
  valid sampleTree /\ card sampleTree < maxNodes /\
  exists t' added,
    Insert 4%positive sampleTree 5 50 = Some (t', added) /\ valid t' /\
    added = isNil (GetNode sampleTree 5) /\
    Size t' = Size sampleTree + (if added then 1 else 0) /\
    forall key', Get t' key' = if Cmp 5 key' =? 0 then 50 else Get sampleTree key'.
Proof.
  split; [apply sampleTree_valid|]. split; [apply sampleTree_valid|].
  apply (X1_insert_step (K:=Z) (V:=Z)); apply sampleTree_valid.
Defined.

Lemma X2_remove_step_witness :
  valid sampleTree /\ card sampleTree <= maxNodes /\
  exists t' removed,
    Remove sampleTree 2 = Some (t', removed) /\ valid t' /\
    removed = negb (isNil (GetNode sampleTree 2)) /\
    Size t' = Size sampleTree - (if removed then 1 else 0) /\
    forall key', Get t' key' = if Cmp 2 key' =? 0 then zero else Get sampleTree key'.
Proof.
  assert (Hc : card sampleTree <= maxNodes) by (cbv; discriminate).
  split; [apply sampleTree_valid|]. split; [exact Hc|].
  apply (X2_remove_step (K:=Z) (V:=Z)); [apply sampleTree_valid|exact Hc].
Defined.

Lemma X3_GetNode_nodes_witness :
  (isNil (GetNode sampleTree 6) = false ->
   In (GetNode sampleTree 6) (walk false sampleTree) /\
   Cmp (RootKey (GetNode sampleTree 6)) 6 = 0) /\
  CmpOrder Z /\ bst sampleTree /\
  (forall x, In x (walk false sampleTree) -> GetNode sampleTree (RootKey x) = x) /\
  (isNil (GetNode sampleTree 6) = true ->
   Forall (fun k => Cmp k 6 <> 0) (keysOf sampleTree)).
Proof.
  split; [apply (X3_GetNode_nodes (K:=Z) (V:=Z) sampleTree 6)|].
  split; [exact CmpOrder_cmpUint|]. split; [apply sampleTree_valid|].
  apply (X3_GetNode_nodes (K:=Z) (V:=Z) sampleTree 6);
    [exact CmpOrder_cmpUint|apply sampleTree_valid].
Defined.

Lemma X7_variants_agree_witness :
  sizeOK sampleTree /\ card sampleTree <= maxNodes /\ - 2 ^ 63 <= 0 < 2 ^ 63 /\
  exists least greatest,
    Least sampleTree 0 = Some least /\
    LeastKeys sampleTree 0 = Some (map RootKey least) /\
    LeastValues sampleTree 0 = Some (map RootValue least) /\
    Greatest sampleTree 0 = Some greatest /\
    GreatestKeys sampleTree 0 = Some (map RootKey greatest) /\
    GreatestValues sampleTree 0 = Some (map RootValue greatest).
Proof.
  assert (Hc : card sampleTree <= maxNodes) by (cbv; discriminate).
  split; [apply sampleTree_valid|]. split; [exact Hc|]. split; [lia|].
  apply (X7_variants_agree (K:=Z) (V:=Z)); [apply sampleTree_valid|exact Hc|lia].
Defined.

Lemma X4_extremal_nodes_witness :
  bst sampleTree /\ isNil sampleTree = false /\ 0 <= Size sampleTree < 2 ^ 63 /\
  (exists m,
     LeastNode sampleTree = Some m /\ isNil m = false /\
     GetNode sampleTree (RootKey m) = m /\
     Forall (fun k => Cmp (RootKey m) k <= 0) (keysOf sampleTree)) /\
  (exists m,
     GreatestNode sampleTree = Some m /\ isNil m = false /\
     GetNode sampleTree (RootKey m) = m /\
     Forall (fun k => 0 <= Cmp (RootKey m) k) (keysOf sampleTree)).
Proof.
  assert (Hs : 0 <= Size sampleTree < 2 ^ 63)
    by (vm_compute; split; [discriminate|reflexivity]).
  split; [apply sampleTree_valid|]. split; [reflexivity|]. split; [exact Hs|].
  apply (X4_extremal_nodes (K:=Z) (V:=Z) sampleTree);
    [apply sampleTree_valid|reflexivity|exact Hs].
Defined.

Lemma X5_keys_values_witness :
  valid sampleTree /\ card sampleTree <= maxNodes /\
  exists ks vs,
    Keys sampleTree = Some ks /\ Values sampleTree = Some vs /\
    Z.of_nat (length ks) = Size sampleTree /\
    Z.of_nat (length vs) = Size sampleTree /\
    ascending ks /\ Forall2 (fun k v => Get sampleTree k = v) ks vs.
Proof.
  assert (Hc : card sampleTree <= maxNodes) by (cbv; discriminate).
  split; [apply sampleTree_valid|]. split; [exact Hc|].
  apply (X5_keys_values (K:=Z) (V:=Z)); [apply sampleTree_valid|exact Hc].
Defined.

Lemma X6_bounded_prefix_witness :
  valid sampleTree /\ card sampleTree <= maxNodes /\ 1 <= 2 < 2 ^ 63 /\
  LeastKeys sampleTree 2
    = Some (firstn (Z.to_nat (Z.min 2 (Size sampleTree))) (keysOf sampleTree)) /\
  GreatestKeys sampleTree 2
    = Some (firstn (Z.to_nat (Z.min 2 (Size sampleTree))) (rev (keysOf sampleTree))).
Proof.
  assert (Hc : card sampleTree <= maxNodes) by (cbv; discriminate).
  split; [apply sampleTree_valid|]. split; [exact Hc|]. split; [lia|].
  split; apply (X6_bounded_prefix (K:=Z) (V:=Z) sampleTree 2);
    first [apply sampleTree_valid|exact Hc|lia].
Defined.

Lemma X8_foreach_all_witness :
  valid sampleTree /\ card sampleTree <= maxNodes /\
  exists ks vs,
    Keys sampleTree = Some ks /\ Values sampleTree = Some vs /\
    ForEach sampleTree (fun k v seen => (seen ++ [(k, v)], true)) []
      = Some (combine ks vs) /\
    ReverseForEach sampleTree (fun k v seen => (seen ++ [(k, v)], true)) []
      = Some (rev (combine ks vs)).
Proof.
  assert (Hc : card sampleTree <= maxNodes) by (cbv; discriminate).
  split; [apply sampleTree_valid|]. split; [exact Hc|].
  apply (X8_foreach_all (K:=Z) (V:=Z)); [apply sampleTree_valid|exact Hc].
Defined.

Lemma X9_remove_every_key_witness :
  valid sampleTree /\ card sampleTree <= maxNodes /\
  Keys sampleTree = Some [1; 2; 6] /\ Permutation [6; 1; 2] [1; 2; 6] /\
  removeEach sampleTree [6; 1; 2] = Some (Nil, true).
Proof.
  assert (Hc : card sampleTree <= maxNodes) by (cbv; discriminate).
  assert (Hp : Permutation [6; 1; 2] [1; 2; 6]).
  { apply (Permutation_cons_app [1; 2] []). apply Permutation_refl. }
  split; [apply sampleTree_valid|]. split; [exact Hc|].
  split; [reflexivity|]. split; [exact Hp|].
  apply (X9_remove_every_key (K:=Z) (V:=Z) sampleTree [1; 2; 6] [6; 1; 2]);
    [apply sampleTree_valid|exact Hc|reflexivity|exact Hp].
Defined.

Lemma X10_insertion_order_witness :
  Z.of_nat (length [(2, 20); (1, 10); (6, 60)]) <= maxNodes /\
  distinctKeys (map fst [(2, 20); (1, 10); (6, 60)]) /\
  distinctKeys (map fst [(6, 60); (2, 20); (1, 10)]) /\
  Permutation [(2, 20); (1, 10); (6, 60)] [(6, 60); (2, 20); (1, 10)] /\
  exists (t t' : Tree (K:=Z) (V:=Z)) ks,
    insertAll [(2, 20); (1, 10); (6, 60)] = Some t /\
    insertAll [(6, 60); (2, 20); (1, 10)] = Some t' /\
    Keys t = Some ks /\ Keys t' = Some ks /\ Values t' = Values t /\
    Permutation ks (map fst [(2, 20); (1, 10); (6, 60)]) /\
    forall key, Get t' key = Get t key.
Proof.
  assert (Hb : Z.of_nat (length [(2, 20); (1, 10); (6, 60)]) <= maxNodes)
    by (cbv; discriminate).
  assert (Hd : distinctKeys (map fst [(2, 20); (1, 10); (6, 60)]))
    by (repeat constructor; cbv; lia).
  assert (Hd' : distinctKeys (map fst [(6, 60); (2, 20); (1, 10)]))
    by (repeat constructor; cbv; lia).
  assert (Hp : Permutation [(2, 20); (1, 10); (6, 60)] [(6, 60); (2, 20); (1, 10)]).
  { apply Permutation_sym, (Permutation_cons_app [(2, 20); (1, 10)] []).
    apply Permutation_refl. }
  split; [exact Hb|]. split; [exact Hd|]. split; [exact Hd'|]. split; [exact Hp|].
  apply (X10_insertion_order (K:=Z) (V:=Z) _ _ Hb Hd Hd' Hp).
Defined.

Lemma X11_height_bound_witness :
  valid sampleTree /\ card sampleTree <= maxNodes /\
  4 ^ Z.of_nat (height sampleTree)
    <= 3 ^ Z.of_nat (height sampleTree) * (Size sampleTree + 1).
Proof.
  assert (Hc : card sampleTree <= maxNodes) by (cbv; discriminate).
  split; [apply sampleTree_valid|]. split; [exact Hc|].
  apply (X11_height_bound (K:=Z) (V:=Z)); [apply sampleTree_valid|exact Hc].
Defined.

Lemma X12_insert_cells_witness :
  Insert 4%positive sampleTree 5 50
    = Some (Node 1 (Node 2 Nil Nil 0 1 10)
              (Node 3 (Node 4 Nil Nil 0 5 50) Nil 1 6 60) 3 2 20, true) /\
  exists l1 l2,
    cells sampleTree = l1 ++ l2 /\
    cells (Node (K:=Z) (V:=Z) 1 (Node 2 Nil Nil 0 1 10)
             (Node 3 (Node 4 Nil Nil 0 5 50) Nil 1 6 60) 3 2 20)
      = l1 ++ (4%positive, 5, 50) :: l2.
Proof.
  split; [reflexivity|].
  apply (X12_insert_cells (K:=Z) (V:=Z) 4%positive sampleTree _ 5 50 true).
  reflexivity.
Defined.

Lemma X13_revisions_agree_witness :
  valid sampleTree /\ card sampleTree <= maxNodes /\
  (isNil sampleTree = false ->
   Keys sampleTree = Keys_rec sampleTree /\ Values sampleTree = Values_rec sampleTree) /\
  LeastNode sampleTree = Some (LeastNode_rec sampleTree) /\
  GreatestNode sampleTree = Some (GreatestNode_rec sampleTree).
Proof.
  assert (Hc : card sampleTree <= maxNodes) by (cbv; discriminate).
  split; [apply sampleTree_valid|]. split; [exact Hc|].
  destruct (X13_revisions_agree (K:=Z) (V:=Z) sampleTree) as (A & B & C & _);
    [apply sampleTree_valid|exact Hc|].
  repeat split; auto; apply A; auto.
Defined.

Lemma X14_insert_then_remove_witness :
  valid sampleTree /\ card sampleTree < maxNodes /\
  isNil (GetNode sampleTree 5) = true /\
  exists t1 t2,
    Insert 4%positive sampleTree 5 50 = Some (t1, true) /\
    Remove t1 5 = Some (t2, true) /\
    valid t2 /\ Keys t2 = Keys sampleTree /\ Values t2 = Values sampleTree /\
    Size t2 = Size sampleTree /\
    forall key', Get t2 key' = Get sampleTree key'.
Proof.
  split; [apply sampleTree_valid|]. split; [apply sampleTree_valid|].
  split; [reflexivity|].
  apply (X14_insert_then_remove (K:=Z) (V:=Z));
    [apply sampleTree_valid|apply sampleTree_valid|reflexivity].
Defined.

Lemma X16_inserted_found_witness :
  Z.of_nat (length [(2, 20); (1, 10); (6, 60)]) <= maxNodes /\
  In (1, 10) [(2, 20); (1, 10); (6, 60)] /\
  exists (t : Tree (K:=Z) (V:=Z)) ks,
    insertAll [(2, 20); (1, 10); (6, 60)] = Some t /\
    isNil (GetNode t 1) = false /\
    Keys t = Some ks /\ ascending ks /\
    Forall (fun k' => isNil (GetNode t k') = false) ks.
Proof.
  assert (Hb : Z.of_nat (length [(2, 20); (1, 10); (6, 60)]) <= maxNodes)
    by (cbv; discriminate).
  assert (Hin : In (1, 10) [(2, 20); (1, 10); (6, 60)]) by (right; left; reflexivity).
  split; [exact Hb|]. split; [exact Hin|].
  apply (X16_inserted_found (K:=Z) (V:=Z) _ 1 10 Hb Hin).
Defined.

Lemma X15_balance_repairs_witness :
  valid (K:=Z) (V:=Z) Nil /\
  valid (K:=Z) (V:=Z) (Node 2 (Node 4 Nil Nil 0 6 60) (Node 3 Nil Nil 0 8 80) 2 7 70) /\
  bst (K:=Z) (V:=Z)
    (Node 1 Nil (Node 2 (Node 4 Nil Nil 0 6 60) (Node 3 Nil Nil 0 8 80) 2 7 70) 3 5 50) /\
  3 = Size (K:=Z) (V:=Z) Nil
      + Size (K:=Z) (V:=Z) (Node 2 (Node 4 Nil Nil 0 6 60) (Node 3 Nil Nil 0 8 80) 2 7 70) /\
  card (K:=Z) (V:=Z) Nil
    + card (K:=Z) (V:=Z) (Node 2 (Node 4 Nil Nil 0 6 60) (Node 3 Nil Nil 0 8 80) 2 7 70)
    < maxNodes /\
  exists t',
    balance true
      (Node (K:=Z) (V:=Z) 1 Nil
         (Node 2 (Node 4 Nil Nil 0 6 60) (Node 3 Nil Nil 0 8 80) 2 7 70) 3 5 50)
      = Some t' /\
    valid t' /\
    cells t'
      = cells (Node (K:=Z) (V:=Z) 1 Nil
                 (Node 2 (Node 4 Nil Nil 0 6 60) (Node 3 Nil Nil 0 8 80) 2 7 70) 3 5 50) /\
    Size t'
      = Size (K:=Z) (V:=Z) Nil
        + Size (K:=Z) (V:=Z) (Node 2 (Node 4 Nil Nil 0 6 60) (Node 3 Nil Nil 0 8 80) 2 7 70)
        + 1.
Proof.
  assert (Hl : valid (K:=Z) (V:=Z) Nil) by (cbv; auto).
  assert (Hr : valid (K:=Z) (V:=Z)
                 (Node 2 (Node 4 Nil Nil 0 6 60) (Node 3 Nil Nil 0 8 80) 2 7 70))
    by (unfold valid; cbv; repeat split; try reflexivity; try discriminate).
  assert (Hb : bst (K:=Z) (V:=Z)
                 (Node 1 Nil
                    (Node 2 (Node 4 Nil Nil 0 6 60) (Node 3 Nil Nil 0 8 80) 2 7 70)
                    3 5 50))
    by (cbv; repeat split; try reflexivity; try discriminate).
  split; [exact Hl|]. split; [exact Hr|]. split; [exact Hb|].
  split; [reflexivity|]. split; [cbv; reflexivity|].
  destruct (X15_balance_repairs (K:=Z) (V:=Z) true 1%positive Nil
              (Node 2 (Node 4 Nil Nil 0 6 60) (Node 3 Nil Nil 0 8 80) 2 7 70)
              3 5 50 Hl Hr Hb)
    as (t' & E & Hv & Hc & Hs & _);
    [reflexivity|cbv; reflexivity|cbv; split; discriminate|].
  exists t'. repeat split; auto; apply Hv.
Defined.
